(** * Fixed-step Euler solvers and their analysis harness

    A shallow embedding of [src/euler.py] and [src/analysis.py].

    Numbers.  The Python code is written for any numbers and is run on
    floats.  Two embeddings of it are given.  Module [euler] and module
    [analysis] compute with exact rationals [Q], equality of numbers being
    [Qeq]: they carry the statements in which rounding plays no part (which
    value a loop accepts, how a table is laid out, which check fails).
    Module [euler_b64] is the solvers of [src/euler.py] on IEEE 754 binary64
    numbers, Rocq's primitive [float]: it carries the statements that depend
    on rounding, absorption, overflow and [nan], and their counterexamples.
    Integers ([epochs], loop counts, list indices) are [Z].

    Failures.  A Python exception is a value of [exn]; a function that can
    raise returns a [result]. *)

From Stdlib Require Import QArith Qabs Qround Qpower ZArith List Bool Lia Lqa Sorted.
From Stdlib Require Import Floats.
From Equations Require Import Equations.
Import ListNotations.

#[local] Set Warnings "-inexact-float".

Local Open Scope Q_scope.

(** ** Exceptions and the error monad *)

Inductive exn : Type :=
| AssertionError
| ZeroDivisionError
| IndexError
| ValueError
| OverflowError.

Definition result (A : Type) : Type := (exn + A)%type.

Definition ret {A : Type} (a : A) : result A := inr a.
Definition raise {A : Type} (e : exn) : result A := inl e.

Definition bind {A B : Type} (m : result A) (k : A -> result B) : result B :=
  match m with
  | inl e => inl e
  | inr a => k a
  end.

Notation "x <- m ;; k" := (bind m (fun x => k))
  (at level 61, m at next level, right associativity).

Definition py_assert (c : bool) : result unit :=
  if c then ret tt else raise AssertionError.

(** ** Python arithmetic on the rationals *)

Definition Qlt_bool (x y : Q) : bool :=
  match x ?= y with
  | Lt => true
  | _ => false
  end.

(** [x / y] on Python numbers: true division, which raises on a zero divisor. *)
Definition py_div (x y : Q) : result Q :=
  if Qeq_bool y 0 then raise ZeroDivisionError else ret (x / y).

(** [round(x)] with one argument: the nearest integer, ties to the even one. *)
Definition py_round (x : Q) : Z :=
  let n := Qfloor x in
  match (x - inject_Z n ?= 1 # 2)%Q with
  | Lt => n
  | Gt => (n + 1)%Z
  | Eq => if Z.even n then n else (n + 1)%Z
  end.

(** [for _ in range(n): s = body(s)] *)
Fixpoint repeat_body {S : Type} (n : nat) (body : S -> S) (s : S) : S :=
  match n with
  | O => s
  | Datatypes.S n' => repeat_body n' body (body s)
  end.

Definition for_range {S : Type} (n : Z) (body : S -> S) (s : S) : S :=
  repeat_body (Z.to_nat n) body s.

(** ** Sequences and the pandas and numpy objects the harness uses *)

(** Truth value of a list: [if l:]. *)
Definition nonempty {A : Type} (l : list A) : bool :=
  match l with
  | [] => false
  | _ :: _ => true
  end.

Definition enumerate {A : Type} (l : list A) : list (nat * A) :=
  combine (seq 0 (length l)) l.

(** [for x in l: s = body(x, s)], where the body may raise. *)
Fixpoint for_each {A S : Type} (l : list A) (body : A -> S -> result S) (s : S)
    : result S :=
  match l with
  | [] => ret s
  | x :: l' => s' <- body x s ;; for_each l' body s'
  end.

Fixpoint list_update {A : Type} (l : list A) (n : nat) (v : A) : list A :=
  match l, n with
  | [], _ => []
  | _ :: l', O => v :: l'
  | x :: l', Datatypes.S n' => x :: list_update l' n' v
  end.

(** The position a Python index denotes in a sequence of length [len]:
    negative indices count from the end. *)
Definition py_index (len : nat) (i : Z) : result nat :=
  let n := Z.of_nat len in
  if ((0 <=? i) && (i <? n))%Z then ret (Z.to_nat i)
  else if ((- n <=? i) && (i <? 0))%Z then ret (Z.to_nat (n + i))
  else raise IndexError.

(** [l[i]] *)
Definition list_getitem {A : Type} (l : list A) (i : Z) : result A :=
  k <- py_index (length l) i ;;
  match nth_error l k with
  | Some x => ret x
  | None => raise IndexError
  end.

(** [l[i] = v] *)
Definition list_setitem {A : Type} (l : list A) (i : Z) (v : A) : result (list A) :=
  k <- py_index (length l) i ;;
  ret (list_update l k v).

(** [list(range(0, stop, step))] for [stop >= 0]. *)
Definition py_range0 (stop : nat) (step : Z) : result (list nat) :=
  if (step =? 0)%Z then raise ValueError
  else if (step <? 0)%Z then ret []
  else ret (filter (fun j => (Z.of_nat j mod step =? 0)%Z) (seq 0 stop)).

(** [np.linspace(start, stop, num)]: [num] evenly spaced samples, the last
    one being [stop] itself. *)
Definition np_linspace (start stop : Q) (num : Z) : result (list Q) :=
  if (num <? 0)%Z then raise ValueError
  else if (num =? 0)%Z then ret []
  else if (num =? 1)%Z then ret [start]
  else
    let step := (stop - start) / inject_Z (num - 1) in
    ret (map (fun i => inject_Z (Z.of_nat i) * step + start)
             (seq 0 (Z.to_nat (num - 1))) ++ [stop]).

(** Column labels of the comparison table: ['t'] and ['y with h=' + str(h)].
    Two step sizes give the same label when they are the same number. *)
Inductive label : Type :=
| Lt_axis
| Ly (h : Q).

Definition label_eqb (l1 l2 : label) : bool :=
  match l1, l2 with
  | Lt_axis, Lt_axis => true
  | Ly h1, Ly h2 => Qeq_bool h1 h2
  | _, _ => false
  end.

(** A cell holds a number or [nan], the "no value" marker. *)
Definition cell : Type := option Q.

(** A [pd.DataFrame] with the default integer index: the number of rows and
    the columns in insertion order. *)
Record DataFrame : Type := mkDataFrame {
  nrows : nat;
  columns : list (label * list cell)
}.

Definition pd_DataFrame : DataFrame := mkDataFrame 0 [].

Fixpoint set_column (cols : list (label * list cell)) (l : label) (v : list cell)
    : list (label * list cell) :=
  match cols with
  | [] => [(l, v)]
  | (k, c) :: cols' =>
      if label_eqb k l then (k, v) :: cols' else (k, c) :: set_column cols' l v
  end.

Fixpoint get_column (cols : list (label * list cell)) (l : label)
    : option (list cell) :=
  match cols with
  | [] => None
  | (k, c) :: cols' => if label_eqb k l then Some c else get_column cols' l
  end.

(** [df[l] = v] for a list or array [v].  A frame without rows takes its
    index from a non-empty [v] (its earlier columns are filled with [nan]);
    otherwise the lengths must agree. *)
Definition df_setitem (df : DataFrame) (l : label) (v : list cell) : result DataFrame :=
  if (nrows df =? 0)%nat && nonempty v then
    ret (mkDataFrame (length v)
           (set_column (map (fun kc => (fst kc, repeat None (length v))) (columns df)) l v))
  else if (length v =? nrows df)%nat then
    ret (mkDataFrame (nrows df) (set_column (columns df) l v))
  else raise ValueError.

(** [df[l] = x] for a scalar [x]. *)
Definition df_setitem_scalar (df : DataFrame) (l : label) (x : cell) : DataFrame :=
  mkDataFrame (nrows df) (set_column (columns df) l (repeat x (nrows df))).

(** A solver returns the sequence of [t] and the sequence of [y]. *)
Definition trajectory : Type := (list Q * list Q)%type.

(** The uniform solver contract: [method(f, a, b, t0, y0, h, **params)], with
    the keyword parameters already supplied. *)
Definition solver : Type :=
  (Q -> Q -> Q) -> Q -> Q -> Q -> Q -> Q -> result trajectory.

(** * [src/euler.py] *)

Module euler.

Definition f1 (t y : Q) : Q := y * y + t * y + t * t.

Definition f2 (t y : Q) : Q := y * y * y + t * y * y + t * t * y + t * t * t.

(** ** Solver state *)

(** The variables a stepping loop updates: the current point [(ti, yi)] and
    the two lists it appends to. *)
Record walk : Type := Walk {
  ti : Q;
  yi : Q;
  t_acc : list Q;
  y_acc : list Q
}.

(** The lines between the two loops, shared verbatim by the four solvers:
    [if t_temp and y_temp: reverse both, extend the output with them], then
    [t_list.append(t0), y_list.append(y0)]. *)
Definition splice (t_temp y_temp : list Q) (t0 y0 : Q) : trajectory :=
  let '(t_list, y_list) :=
    if nonempty t_temp && nonempty y_temp
    then ([] ++ rev t_temp, [] ++ rev y_temp)
    else ([], []) in
  (t_list ++ [t0], y_list ++ [y0]).

(** ** The inner loop of the implicit solvers

    [[
        epoch = 0
        while True:
            epoch += 1
            y__ = g(y_)
            if abs(y__ - y_) < threshold or epoch > epochs:
                break
            y_ = y__
    ]]
    where [g] is the right-hand side of the line that computes [y__].  The
    function returns the values of [y_], [y__] and [epoch] when the loop is
    left; [epoch] counts the iterations executed. *)

Definition inspect {A : Type} (a : A) : {b : A | a = b} := exist _ a eq_refl.

(** [abs(y__ - y_) < threshold or epoch > epochs] *)
Definition stop_test (threshold : Q) (epochs epoch : Z) (y__ y_ : Q) : bool :=
  Qlt_bool (Qabs (y__ - y_)) threshold || (epochs <? epoch)%Z.

Equations? fixed_point_iteration (g : Q -> Q) (threshold : Q) (epochs : Z)
    (epoch : Z) (y_ : Q) : Q * Q * Z
    by wf (Z.to_nat (epochs - epoch)) lt :=
  fixed_point_iteration g threshold epochs epoch y_
    with inspect (stop_test threshold epochs (epoch + 1) (g y_) y_) := {
    | exist _ true _ => (y_, g y_, (epoch + 1)%Z);
    | exist _ false Hgo =>
        fixed_point_iteration g threshold epochs (epoch + 1)%Z (g y_) }.
Proof.
  unfold stop_test in Hgo.
  apply orb_false_iff in Hgo. destruct Hgo as [_ Hgo].
  apply Z.ltb_ge in Hgo. lia.
Qed.

(** ** Explicit Euler *)

Definition euler_explicit (f : Q -> Q -> Q) (a b t0 y0 h : Q) : result trajectory :=
  _ <- py_assert (Qle_bool a t0 && Qle_bool t0 b) ;;
  x <- py_div (t0 - a) h ;;
  let back :=
    for_range (py_round x)
      (fun s =>
         let y_ := yi s - h * f (ti s) (yi s) in
         Walk (ti s - h) y_ (t_acc s ++ [ti s - h]) (y_acc s ++ [y_]))
      (Walk t0 y0 [] []) in
  let '(t_list, y_list) := splice (t_acc back) (y_acc back) t0 y0 in
  x <- py_div (b - t0) h ;;
  let fwd :=
    for_range (py_round x)
      (fun s =>
         let y_ := yi s + h * f (ti s) (yi s) in
         Walk (ti s + h) y_ (t_acc s ++ [ti s + h]) (y_acc s ++ [y_]))
      (Walk t0 y0 t_list y_list) in
  ret (t_acc fwd, y_acc fwd).

(** ** Implicit (backward) Euler *)

Definition euler_implicit (f : Q -> Q -> Q) (a b t0 y0 h : Q)
    (threshold : Q) (epochs : Z) : result trajectory :=
  _ <- py_assert (Qle_bool a t0 && Qle_bool t0 b) ;;
  x <- py_div (t0 - a) h ;;
  let back :=
    for_range (py_round x)
      (fun s =>
         let y_ := yi s - h * f (ti s) (yi s) in
         let epoch := 0%Z in
         let '(y_, y__, epoch) :=
           fixed_point_iteration (fun y_ => yi s - h * f (ti s - h) y_)
             threshold epochs epoch y_ in
         Walk (ti s - h) y_ (t_acc s ++ [ti s - h]) (y_acc s ++ [y_]))
      (Walk t0 y0 [] []) in
  let '(t_list, y_list) := splice (t_acc back) (y_acc back) t0 y0 in
  x <- py_div (b - t0) h ;;
  let fwd :=
    for_range (py_round x)
      (fun s =>
         let y_ := yi s + h * f (ti s) (yi s) in
         let epoch := 0%Z in
         let '(y_, y__, epoch) :=
           fixed_point_iteration (fun y_ => yi s + h * f (ti s + h) y_)
             threshold epochs epoch y_ in
         Walk (ti s + h) y_ (t_acc s ++ [ti s + h]) (y_acc s ++ [y_]))
      (Walk t0 y0 t_list y_list) in
  ret (t_acc fwd, y_acc fwd).

(** ** Trapezoidal method *)

Definition euler_trapezium (f : Q -> Q -> Q) (a b t0 y0 h : Q)
    (threshold : Q) (epochs : Z) : result trajectory :=
  _ <- py_assert (Qle_bool a t0 && Qle_bool t0 b) ;;
  x <- py_div (t0 - a) h ;;
  let back :=
    for_range (py_round x)
      (fun s =>
         let y_ := yi s - h * f (ti s) (yi s) in
         let epoch := 0%Z in
         let '(y_, y__, epoch) :=
           fixed_point_iteration
             (fun y_ => yi s - (1 # 2) * h * (f (ti s) (yi s) + f (ti s - h) y_))
             threshold epochs epoch y_ in
         Walk (ti s - h) y_ (t_acc s ++ [ti s - h]) (y_acc s ++ [y_]))
      (Walk t0 y0 [] []) in
  let '(t_list, y_list) := splice (t_acc back) (y_acc back) t0 y0 in
  x <- py_div (b - t0) h ;;
  let fwd :=
    for_range (py_round x)
      (fun s =>
         let y_ := yi s + h * f (ti s) (yi s) in
         let epoch := 0%Z in
         let '(y_, y__, epoch) :=
           fixed_point_iteration
             (fun y_ => yi s + (1 # 2) * h * (f (ti s) (yi s) + f (ti s + h) y_))
             threshold epochs epoch y_ in
         Walk (ti s + h) y_ (t_acc s ++ [ti s + h]) (y_acc s ++ [y_]))
      (Walk t0 y0 t_list y_list) in
  ret (t_acc fwd, y_acc fwd).

(** ** Improved Euler (Heun) *)

Definition euler_improved (f : Q -> Q -> Q) (a b t0 y0 h : Q) : result trajectory :=
  _ <- py_assert (Qle_bool a t0 && Qle_bool t0 b) ;;
  x <- py_div (t0 - a) h ;;
  let back :=
    for_range (py_round x)
      (fun s =>
         let y_ := yi s - h * f (ti s) (yi s) in
         let y_ := yi s - (1 # 2) * h * (f (ti s) (yi s) + f (ti s - h) y_) in
         Walk (ti s - h) y_ (t_acc s ++ [ti s - h]) (y_acc s ++ [y_]))
      (Walk t0 y0 [] []) in
  let '(t_list, y_list) := splice (t_acc back) (y_acc back) t0 y0 in
  x <- py_div (b - t0) h ;;
  let fwd :=
    for_range (py_round x)
      (fun s =>
         let y_ := yi s + h * f (ti s) (yi s) in
         let y_ := yi s + (1 # 2) * h * (f (ti s) (yi s) + f (ti s + h) y_) in
         Walk (ti s + h) y_ (t_acc s ++ [ti s + h]) (y_acc s ++ [y_]))
      (Walk t0 y0 t_list y_list) in
  ret (t_acc fwd, y_acc fwd).

(** Default keyword arguments of the two iterating solvers. *)
Definition default_threshold : Q := 1 # 1000000.
Definition euler_implicit_default_epochs : Z := 100.
Definition euler_trapezium_default_epochs : Z := 50.

(** [analyse_step_len(f, method, a, b, t0, y0, *h)] of [euler.py]: the
    reference resolution is the first step size. *)
Definition analyse_step_len (f : Q -> Q -> Q) (method : solver)
    (a b t0 y0 : Q) (h : list Q) : result DataFrame :=
  let h := if negb (nonempty h) then [1 # 100; 5 # 1000; 1 # 1000] else h in
  let df := pd_DataFrame in
  space <- list_getitem h 0 ;;
  x <- py_div (b - a) space ;;
  axis <- np_linspace a b (py_round x + 1) ;;
  df <- df_setitem df Lt_axis (map Some axis) ;;
  for_each h
    (fun hi df =>
       ty <- method f a b t0 y0 hi ;;
       let y := snd ty in
       x <- py_div space hi ;;
       js <- py_range0 (length y) (py_round x) ;;
       col <- for_each js
                (fun j col => yj <- list_getitem y (Z.of_nat j) ;; ret (col ++ [yj]))
                [] ;;
       df_setitem df (Ly hi) (map Some col))
    df.

End euler.

(** * [src/analysis.py] *)

Module analysis.

Definition f1 (t y : Q) : Q := y * y + t * y + t * t.

Definition f2 (t y : Q) : Q := y * y * y + t * y * y + t * t * y + t * t * t.

(** The body of [for j in range(0, len(y)): l[round(j * h[i] / space)] = y[j]]. *)
Definition place (hi space : Q) (jy : nat * Q) (l : list cell) : result (list cell) :=
  x <- py_div (inject_Z (Z.of_nat (fst jy)) * hi) space ;;
  list_setitem l (py_round x) (Some (snd jy)).

(** [analyse_step_len(f, method, a, b, t0, y0, *h, **params)] of
    [analysis.py]: the reference resolution is the last step size. *)
Definition analyse_step_len (f : Q -> Q -> Q) (method : solver)
    (a b t0 y0 : Q) (h : list Q) : result DataFrame :=
  let h := if negb (nonempty h) then [1 # 100; 5 # 1000; 1 # 1000] else h in
  let df := pd_DataFrame in
  space <- list_getitem h (-1) ;;
  x <- py_div (b - a) space ;;
  axis <- np_linspace a b (py_round x + 1) ;;
  df <- df_setitem df Lt_axis (map Some axis) ;;
  for_each h
    (fun hi df =>
       let df := df_setitem_scalar df (Ly hi) None in
       ty <- method f a b t0 y0 hi ;;
       let y := snd ty in
       let l := repeat (@None Q) (nrows df) in
       l <- for_each (enumerate y) (place hi space) l ;;
       df_setitem df (Ly hi) l)
    df.

(** [time.time()]: the clock is an oracle, a sequence of readings; the state
    is the number of readings taken so far. *)
Definition time_time (clock : nat -> Q) (k : nat) : Q * nat :=
  (clock k, Datatypes.S k).

(** [analyse_time(f, method, a, b, t0, y0, h, epochs=10, **params)] *)
Definition analyse_time (clock : nat -> Q) (f : Q -> Q -> Q) (method : solver)
    (a b t0 y0 h : Q) (epochs : Z) : result Q :=
  _ <- py_assert (0 <? epochs)%Z ;;
  let '(now, k) := time_time clock 0 in
  let t_start := now * 1000 in
  _ <- for_each (repeat tt (Z.to_nat epochs))
         (fun _ _ => ty <- method f a b t0 y0 h ;; ret tt) tt ;;
  let '(now, k) := time_time clock k in
  let t_end := now * 1000 in
  py_div (t_end - t_start) (inject_Z epochs).

Definition analyse_time_default_epochs : Z := 10.

(** [analyse_memory(f, method, a, b, t0, y0, h, **params)]: one solver call
    under the profiler; nothing is returned. *)
Definition analyse_memory (f : Q -> Q -> Q) (method : solver)
    (a b t0 y0 h : Q) : result unit :=
  ty <- method f a b t0 y0 h ;; ret tt.

End analysis.

(** * [src/euler.py] in binary64 arithmetic

    The same four solvers with Python floats as IEEE 754 binary64 numbers
    (Rocq's primitive [float]): [+], [-], [*], [/] round to nearest, ties to
    even; a sum can absorb its smaller term, a value can overflow to an
    infinity and [inf - inf] is [nan]; a comparison with [nan] is false;
    [round] raises on an infinity or a [nan].  The arguments are taken to be
    floats; [epochs] is an integer. *)

Module euler_b64.

Local Open Scope float_scope.

Definition trajectory : Type := (list float * list float)%type.

(** The rational number a finite float [(-1)^s * m * 2^e] stands for. *)
Definition exact_value (s : bool) (m : positive) (e : Z) : Q :=
  (inject_Z (cond_Zopp s (Zpos m)) * Qpower 2 e)%Q.

(** The integer nearest to the exact value of a finite float, ties to the
    even one. *)
Definition round_exact (s : bool) (m : positive) (e : Z) : Z :=
  py_round (exact_value s m e).

(** [round(x)] on a float: [OverflowError] on an infinity, [ValueError] on
    [nan], and otherwise the nearest integer, an exact Python [int]. *)
Definition py_round (x : float) : result Z :=
  match Prim2SF x with
  | S754_nan => raise ValueError
  | S754_infinity _ => raise OverflowError
  | S754_zero _ => ret 0%Z
  | S754_finite s m e => ret (round_exact s m e)
  end.

(** [x / y] on floats: raises on a zero divisor of either sign. *)
Definition py_div (x y : float) : result float :=
  if y =? 0 then raise ZeroDivisionError else ret (x / y).

Definition f1 (t y : float) : float := y * y + t * y + t * t.

Definition f2 (t y : float) : float := y * y * y + t * y * y + t * t * y + t * t * t.

Record walk : Type := Walk {
  ti : float;
  yi : float;
  t_acc : list float;
  y_acc : list float
}.

Definition splice (t_temp y_temp : list float) (t0 y0 : float) : trajectory :=
  let '(t_list, y_list) :=
    if nonempty t_temp && nonempty y_temp
    then ([] ++ rev t_temp, [] ++ rev y_temp)
    else ([], []) in
  (t_list ++ [t0], y_list ++ [y0]).

(** [abs(y__ - y_) < threshold or epoch > epochs] *)
Definition stop_test (threshold : float) (epochs epoch : Z) (y__ y_ : float) : bool :=
  (abs (y__ - y_) <? threshold) || (epochs <? epoch)%Z.

Equations? fixed_point_iteration (g : float -> float) (threshold : float)
    (epochs : Z) (epoch : Z) (y_ : float) : float * float * Z
    by wf (Z.to_nat (epochs - epoch)) lt :=
  fixed_point_iteration g threshold epochs epoch y_
    with euler.inspect (stop_test threshold epochs (epoch + 1) (g y_) y_) := {
    | exist _ true _ => (y_, g y_, (epoch + 1)%Z);
    | exist _ false Hgo =>
        fixed_point_iteration g threshold epochs (epoch + 1)%Z (g y_) }.
Proof.
  unfold stop_test in Hgo.
  apply orb_false_iff in Hgo. destruct Hgo as [_ Hgo].
  apply Z.ltb_ge in Hgo. lia.
Qed.

Definition euler_explicit (f : float -> float -> float) (a b t0 y0 h : float)
    : result trajectory :=
  _ <- py_assert ((a <=? t0) && (t0 <=? b)) ;;
  x <- py_div (t0 - a) h ;;
  n <- py_round x ;;
  let back :=
    for_range n
      (fun s =>
         let y_ := yi s - h * f (ti s) (yi s) in
         Walk (ti s - h) y_ (t_acc s ++ [ti s - h]) (y_acc s ++ [y_]))
      (Walk t0 y0 [] []) in
  let '(t_list, y_list) := splice (t_acc back) (y_acc back) t0 y0 in
  x <- py_div (b - t0) h ;;
  n <- py_round x ;;
  let fwd :=
    for_range n
      (fun s =>
         let y_ := yi s + h * f (ti s) (yi s) in
         Walk (ti s + h) y_ (t_acc s ++ [ti s + h]) (y_acc s ++ [y_]))
      (Walk t0 y0 t_list y_list) in
  ret (t_acc fwd, y_acc fwd).

Definition euler_implicit (f : float -> float -> float) (a b t0 y0 h : float)
    (threshold : float) (epochs : Z) : result trajectory :=
  _ <- py_assert ((a <=? t0) && (t0 <=? b)) ;;
  x <- py_div (t0 - a) h ;;
  n <- py_round x ;;
  let back :=
    for_range n
      (fun s =>
         let y_ := yi s - h * f (ti s) (yi s) in
         let epoch := 0%Z in
         let '(y_, y__, epoch) :=
           fixed_point_iteration (fun y_ => yi s - h * f (ti s - h) y_)
             threshold epochs epoch y_ in
         Walk (ti s - h) y_ (t_acc s ++ [ti s - h]) (y_acc s ++ [y_]))
      (Walk t0 y0 [] []) in
  let '(t_list, y_list) := splice (t_acc back) (y_acc back) t0 y0 in
  x <- py_div (b - t0) h ;;
  n <- py_round x ;;
  let fwd :=
    for_range n
      (fun s =>
         let y_ := yi s + h * f (ti s) (yi s) in
         let epoch := 0%Z in
         let '(y_, y__, epoch) :=
           fixed_point_iteration (fun y_ => yi s + h * f (ti s + h) y_)
             threshold epochs epoch y_ in
         Walk (ti s + h) y_ (t_acc s ++ [ti s + h]) (y_acc s ++ [y_]))
      (Walk t0 y0 t_list y_list) in
  ret (t_acc fwd, y_acc fwd).

Definition euler_trapezium (f : float -> float -> float) (a b t0 y0 h : float)
    (threshold : float) (epochs : Z) : result trajectory :=
  _ <- py_assert ((a <=? t0) && (t0 <=? b)) ;;
  x <- py_div (t0 - a) h ;;
  n <- py_round x ;;
  let back :=
    for_range n
      (fun s =>
         let y_ := yi s - h * f (ti s) (yi s) in
         let epoch := 0%Z in
         let '(y_, y__, epoch) :=
           fixed_point_iteration
             (fun y_ => yi s - 0.5 * h * (f (ti s) (yi s) + f (ti s - h) y_))
             threshold epochs epoch y_ in
         Walk (ti s - h) y_ (t_acc s ++ [ti s - h]) (y_acc s ++ [y_]))
      (Walk t0 y0 [] []) in
  let '(t_list, y_list) := splice (t_acc back) (y_acc back) t0 y0 in
  x <- py_div (b - t0) h ;;
  n <- py_round x ;;
  let fwd :=
    for_range n
      (fun s =>
         let y_ := yi s + h * f (ti s) (yi s) in
         let epoch := 0%Z in
         let '(y_, y__, epoch) :=
           fixed_point_iteration
             (fun y_ => yi s + 0.5 * h * (f (ti s) (yi s) + f (ti s + h) y_))
             threshold epochs epoch y_ in
         Walk (ti s + h) y_ (t_acc s ++ [ti s + h]) (y_acc s ++ [y_]))
      (Walk t0 y0 t_list y_list) in
  ret (t_acc fwd, y_acc fwd).

Definition euler_improved (f : float -> float -> float) (a b t0 y0 h : float)
    : result trajectory :=
  _ <- py_assert ((a <=? t0) && (t0 <=? b)) ;;
  x <- py_div (t0 - a) h ;;
  n <- py_round x ;;
  let back :=
    for_range n
      (fun s =>
         let y_ := yi s - h * f (ti s) (yi s) in
         let y_ := yi s - 0.5 * h * (f (ti s) (yi s) + f (ti s - h) y_) in
         Walk (ti s - h) y_ (t_acc s ++ [ti s - h]) (y_acc s ++ [y_]))
      (Walk t0 y0 [] []) in
  let '(t_list, y_list) := splice (t_acc back) (y_acc back) t0 y0 in
  x <- py_div (b - t0) h ;;
  n <- py_round x ;;
  let fwd :=
    for_range n
      (fun s =>
         let y_ := yi s + h * f (ti s) (yi s) in
         let y_ := yi s + 0.5 * h * (f (ti s) (yi s) + f (ti s + h) y_) in
         Walk (ti s + h) y_ (t_acc s ++ [ti s + h]) (y_acc s ++ [y_]))
      (Walk t0 y0 t_list y_list) in
  ret (t_acc fwd, y_acc fwd).

Definition default_threshold : float := 1e-6.

(** ** The stepping protocol on floats *)

(** The samples [n] executions of a loop body produce from [(t, y)]: each
    moves the time by [-h] (backward) or [+h] (forward) and takes the value
    the update rule gives. *)
Fixpoint backward_steps (rule : float -> float -> float) (h : float) (n : nat)
    (t y : float) : list (float * float) :=
  match n with
  | O => []
  | S n' => (t - h, rule t y) :: backward_steps rule h n' (t - h) (rule t y)
  end.

Fixpoint forward_steps (rule : float -> float -> float) (h : float) (n : nat)
    (t y : float) : list (float * float) :=
  match n with
  | O => []
  | S n' => (t + h, rule t y) :: forward_steps rule h n' (t + h) (rule t y)
  end.

(** The trajectory made of [nb] backward steps, reversed, the initial point
    and [nf] forward steps. *)
Definition samples (back_rule fwd_rule : float -> float -> float)
    (nb nf : nat) (t0 y0 h : float) : list (float * float) :=
  rev (backward_steps back_rule h nb t0 y0) ++ [(t0, y0)] ++
  forward_steps fwd_rule h nf t0 y0.

Definition protocol (back_rule fwd_rule : float -> float -> float)
    (nb nf : nat) (t0 y0 h : float) : trajectory :=
  let out := samples back_rule fwd_rule nb nf t0 y0 h in
  (map fst out, map snd out).

(** The two loop counts of a call: [round((t0 - a)/h)] and
    [round((b - t0)/h)], each of which can raise. *)
Definition backward_count (a t0 h : float) : result Z :=
  x <- py_div (t0 - a) h ;; py_round x.
Definition forward_count (b t0 h : float) : result Z :=
  x <- py_div (b - t0) h ;; py_round x.

(** The protocol behind the checks every solver makes. *)
Definition driver (back_rule fwd_rule : float -> float -> float)
    (a b t0 y0 h : float) : result trajectory :=
  _ <- py_assert ((a <=? t0) && (t0 <=? b)) ;;
  nb <- backward_count a t0 h ;;
  nf <- forward_count b t0 h ;;
  ret (protocol back_rule fwd_rule (Z.to_nat nb) (Z.to_nat nf) t0 y0 h).

Definition accepted (r : float * float * Z) : float := fst (fst r).
Definition iterations (r : float * float * Z) : Z := snd r.

(** The update rules of the four solvers, read off the loop bodies. *)
Definition explicit_back (f : float -> float -> float) (h ti yi : float) : float :=
  yi - h * f ti yi.
Definition explicit_fwd (f : float -> float -> float) (h ti yi : float) : float :=
  yi + h * f ti yi.

Definition implicit_back_loop (f : float -> float -> float) (h threshold : float)
    (epochs : Z) (ti yi : float) : float * float * Z :=
  fixed_point_iteration (fun y_ => yi - h * f (ti - h) y_)
    threshold epochs 0%Z (yi - h * f ti yi).
Definition implicit_fwd_loop (f : float -> float -> float) (h threshold : float)
    (epochs : Z) (ti yi : float) : float * float * Z :=
  fixed_point_iteration (fun y_ => yi + h * f (ti + h) y_)
    threshold epochs 0%Z (yi + h * f ti yi).

Definition trapezium_back_loop (f : float -> float -> float) (h threshold : float)
    (epochs : Z) (ti yi : float) : float * float * Z :=
  fixed_point_iteration
    (fun y_ => yi - 0.5 * h * (f ti yi + f (ti - h) y_))
    threshold epochs 0%Z (yi - h * f ti yi).
Definition trapezium_fwd_loop (f : float -> float -> float) (h threshold : float)
    (epochs : Z) (ti yi : float) : float * float * Z :=
  fixed_point_iteration
    (fun y_ => yi + 0.5 * h * (f ti yi + f (ti + h) y_))
    threshold epochs 0%Z (yi + h * f ti yi).

Definition improved_back (f : float -> float -> float) (h ti yi : float) : float :=
  yi - 0.5 * h * (f ti yi + f (ti - h) (yi - h * f ti yi)).
Definition improved_fwd (f : float -> float -> float) (h ti yi : float) : float :=
  yi + 0.5 * h * (f ti yi + f (ti + h) (yi + h * f ti yi)).

(** The rules of the two iterating solvers: the value the loop accepts. *)
Definition implicit_back f h threshold epochs ti yi : float :=
  accepted (implicit_back_loop f h threshold epochs ti yi).
Definition implicit_fwd f h threshold epochs ti yi : float :=
  accepted (implicit_fwd_loop f h threshold epochs ti yi).
Definition trapezium_back f h threshold epochs ti yi : float :=
  accepted (trapezium_back_loop f h threshold epochs ti yi).
Definition trapezium_fwd f h threshold epochs ti yi : float :=
  accepted (trapezium_fwd_loop f h threshold epochs ti yi).

(** A float other than an infinity and [nan]. *)
Definition finite (x : float) : bool :=
  match Prim2SF x with
  | S754_nan | S754_infinity _ => false
  | _ => true
  end.

(** A float that is a zero of either sign. *)
Definition is_zero (x : spec_float) : bool :=
  match x with
  | S754_zero _ => true
  | _ => false
  end.

(** A float that is not negative: a zero, a positive number, [+inf]; [nan],
    which [round] rejects, is let through. *)
Definition sf_nonneg (x : spec_float) : bool :=
  match x with
  | S754_finite s _ _ | S754_infinity s => negb s
  | _ => true
  end.

(** [iterate g n y] is [g] applied [n] times to [y]. *)
Fixpoint iterate (g : float -> float) (n : nat) (y : float) : float :=
  match n with
  | O => y
  | S n' => iterate g n' (g y)
  end.

(** The samples of a result at or after [t0], as the specification selects
    them: those with [t >= t0]. *)
Definition from_t0 (t0 : float) (r : result trajectory)
    : result (list (float * float)) :=
  ty <- r ;;
  ret (filter (fun p => t0 <=? fst p) (combine (fst ty) (snd ty))).

End euler_b64.

(** * The bidirectional stepping protocol, as the specification words it

    Section 4.1: the number of backward steps is [round((t0 - a)/h)], the
    number of forward steps is [round((b - t0)/h)]; the backward steps are
    accumulated into a temporary buffer, the buffer is reversed and put in
    front of the output, [(t0, y0)] follows, and the forward steps, which
    start again from [(t0, y0)], come last.  An update rule maps the current
    point to the value of the next sample. *)

Fixpoint backward_steps (rule : Q -> Q -> Q) (h : Q) (n : nat) (t y : Q)
    : list (Q * Q) :=
  match n with
  | O => []
  | S n' => (t - h, rule t y) :: backward_steps rule h n' (t - h) (rule t y)
  end.

Fixpoint forward_steps (rule : Q -> Q -> Q) (h : Q) (n : nat) (t y : Q)
    : list (Q * Q) :=
  match n with
  | O => []
  | S n' => (t + h, rule t y) :: forward_steps rule h n' (t + h) (rule t y)
  end.

Definition backward_count (a t0 h : Q) : nat := Z.to_nat (py_round ((t0 - a) / h)).
Definition forward_count (b t0 h : Q) : nat := Z.to_nat (py_round ((b - t0) / h)).

Definition samples (back_rule fwd_rule : Q -> Q -> Q) (a b t0 y0 h : Q)
    : list (Q * Q) :=
  let buffer := backward_steps back_rule h (backward_count a t0 h) t0 y0 in
  rev buffer ++ [(t0, y0)] ++ forward_steps fwd_rule h (forward_count b t0 h) t0 y0.

Definition protocol (back_rule fwd_rule : Q -> Q -> Q) (a b t0 y0 h : Q)
    : trajectory :=
  let out := samples back_rule fwd_rule a b t0 y0 h in
  (map fst out, map snd out).

(** The protocol behind the two checks every solver makes first. *)
Definition driver (back_rule fwd_rule : Q -> Q -> Q) (a b t0 y0 h : Q)
    : result trajectory :=
  if negb (Qle_bool a t0 && Qle_bool t0 b) then raise AssertionError
  else if Qeq_bool h 0 then raise ZeroDivisionError
  else ret (protocol back_rule fwd_rule a b t0 y0 h).

(** The value a fixed-point loop hands to the trajectory: the final [y_]. *)
Definition accepted (r : Q * Q * Z) : Q := fst (fst r).
Definition last_y__ (r : Q * Q * Z) : Q := snd (fst r).
Definition iterations (r : Q * Q * Z) : Z := snd r.

(** The update rules of the four solvers, read off the loop bodies. *)
Definition explicit_back (f : Q -> Q -> Q) (h ti yi : Q) : Q := yi - h * f ti yi.
Definition explicit_fwd (f : Q -> Q -> Q) (h ti yi : Q) : Q := yi + h * f ti yi.

Definition implicit_back_loop (f : Q -> Q -> Q) (h threshold : Q) (epochs : Z)
    (ti yi : Q) : Q * Q * Z :=
  euler.fixed_point_iteration (fun y_ => yi - h * f (ti - h) y_)
    threshold epochs 0%Z (yi - h * f ti yi).
Definition implicit_fwd_loop (f : Q -> Q -> Q) (h threshold : Q) (epochs : Z)
    (ti yi : Q) : Q * Q * Z :=
  euler.fixed_point_iteration (fun y_ => yi + h * f (ti + h) y_)
    threshold epochs 0%Z (yi + h * f ti yi).

Definition trapezium_back_loop (f : Q -> Q -> Q) (h threshold : Q) (epochs : Z)
    (ti yi : Q) : Q * Q * Z :=
  euler.fixed_point_iteration
    (fun y_ => yi - (1 # 2) * h * (f ti yi + f (ti - h) y_))
    threshold epochs 0%Z (yi - h * f ti yi).
Definition trapezium_fwd_loop (f : Q -> Q -> Q) (h threshold : Q) (epochs : Z)
    (ti yi : Q) : Q * Q * Z :=
  euler.fixed_point_iteration
    (fun y_ => yi + (1 # 2) * h * (f ti yi + f (ti + h) y_))
    threshold epochs 0%Z (yi + h * f ti yi).

Definition improved_back (f : Q -> Q -> Q) (h ti yi : Q) : Q :=
  yi - (1 # 2) * h * (f ti yi + f (ti - h) (yi - h * f ti yi)).
Definition improved_fwd (f : Q -> Q -> Q) (h ti yi : Q) : Q :=
  yi + (1 # 2) * h * (f ti yi + f (ti + h) (yi + h * f ti yi)).

(** * Vocabulary of the statements *)

(** [iterate g n y] is [g] applied [n] times to [y]. *)
Fixpoint iterate (g : Q -> Q) (n : nat) (y : Q) : Q :=
  match n with
  | O => y
  | S n' => iterate g n' (g y)
  end.

(** A natural number as a rational. *)
Definition Qnat (n : nat) : Q := inject_Z (Z.of_nat n).

(** [h] after the default has been filled in. *)
Definition supplied (hs : list Q) : list Q :=
  if negb (nonempty hs) then [1 # 100; 5 # 1000; 1 # 1000] else hs.


(** One round of the loop over the step sizes. *)
Definition column_step (f : Q -> Q -> Q) (method : solver) (a b t0 y0 space : Q)
    (hi : Q) (df : DataFrame) : result DataFrame :=
  let df := df_setitem_scalar df (Ly hi) None in
  ty <- method f a b t0 y0 hi ;;
  let y := snd ty in
  let l := repeat (@None Q) (nrows df) in
  l <- for_each (enumerate y) (analysis.place hi space) l ;;
  df_setitem df (Ly hi) l.





(** One round of the loop over the step sizes in [euler.analyse_step_len]. *)
Definition euler_column_step (f : Q -> Q -> Q) (method : solver)
    (a b t0 y0 space : Q) (hi : Q) (df : DataFrame) : result DataFrame :=
  ty <- method f a b t0 y0 hi ;;
  let y := snd ty in
  x <- py_div space hi ;;
  js <- py_range0 (length y) (py_round x) ;;
  col <- for_each js
           (fun j col => yj <- list_getitem y (Z.of_nat j) ;; ret (col ++ [yj]))
           [] ;;
  df_setitem df (Ly hi) (map Some col).

(** Every column of a frame has as many entries as the frame has rows. *)
Definition frame_ok (df : DataFrame) : Prop :=
  Forall (fun kc => length (snd kc) = nrows df) (columns df).

(** The layout of a comparison table for the step sizes [hs]: a well-formed
    frame whose first column is the time axis and whose other columns are
    labelled by step sizes of [hs]. *)
Definition table_layout (hs : list Q) (df : DataFrame) : Prop :=
  frame_ok df /\
  exists tcol rest,
    columns df = (Lt_axis, tcol) :: rest /\
    Forall (fun kc => exists hi, In hi hs /\ fst kc = Ly hi) rest.

(** What the loop of [euler.analyse_step_len] has established once the step
    sizes [done] have been processed: the column of a step size holds every
    [k]-th sample of one solver run, [k] being [round(space / h_i)]. *)
Definition euler_table_state (f : Q -> Q -> Q) (method : solver)
    (a b t0 y0 space : Q) (N : nat) (done : list Q) (df : DataFrame) : Prop :=
  nrows df = N /\
  forall hi, In hi done ->
    exists col hj ts ys k,
      get_column (columns df) (Ly hi) = Some col /\
      In hj done /\ hj == hi /\
      method f a b t0 y0 hj = inr (ts, ys) /\
      (1 <= k)%nat /\ Z.of_nat k = py_round (space / hj) /\
      length col = N /\
      forall i, nth_error col i = option_map Some (nth_error ys (i * k)).

(** * Each solver follows the protocol *)

Section Loops.
Variable h : Q.
Variable rule : Q -> Q -> Q.
Variable body : euler.walk -> euler.walk.

Import euler.

Lemma repeat_body_backward :
  (forall s, body s =
     Walk (ti s - h) (rule (ti s) (yi s))
          (t_acc s ++ [ti s - h]) (y_acc s ++ [rule (ti s) (yi s)])) ->
  forall n t y ts ys,
    let st := backward_steps rule h n t y in
    t_acc (repeat_body n body (Walk t y ts ys)) = ts ++ map fst st /\
    y_acc (repeat_body n body (Walk t y ts ys)) = ys ++ map snd st.
Proof.
  intros Hbody n. induction n as [|n IH]; intros t y ts ys; simpl.
  - now rewrite !app_nil_r.
  - rewrite Hbody; simpl.
    destruct (IH (t - h) (rule t y) (ts ++ [t - h]) (ys ++ [rule t y])) as [Ht Hy].
    rewrite Ht, Hy, <- !app_assoc. now split.
Qed.

Lemma repeat_body_forward :
  (forall s, body s =
     Walk (ti s + h) (rule (ti s) (yi s))
          (t_acc s ++ [ti s + h]) (y_acc s ++ [rule (ti s) (yi s)])) ->
  forall n t y ts ys,
    let st := forward_steps rule h n t y in
    t_acc (repeat_body n body (Walk t y ts ys)) = ts ++ map fst st /\
    y_acc (repeat_body n body (Walk t y ts ys)) = ys ++ map snd st.
Proof.
  intros Hbody n. induction n as [|n IH]; intros t y ts ys; simpl.
  - now rewrite !app_nil_r.
  - rewrite Hbody; simpl.
    destruct (IH (t + h) (rule t y) (ts ++ [t + h]) (ys ++ [rule t y])) as [Ht Hy].
    rewrite Ht, Hy, <- !app_assoc. now split.
Qed.
End Loops.

Lemma splice_buffer (st : list (Q * Q)) (t0 y0 : Q) :
  euler.splice (map fst st) (map snd st) t0 y0 =
  (map fst (rev st ++ [(t0, y0)]), map snd (rev st ++ [(t0, y0)])).
Proof.
  unfold euler.splice. destruct st as [|p st]; [reflexivity|].
  cbn [map nonempty andb app].
  now rewrite !map_app, !map_rev.
Qed.

Lemma solver_shape (back_rule fwd_rule : Q -> Q -> Q)
    (back_body fwd_body : euler.walk -> euler.walk) (a b t0 y0 h : Q) :
  (forall s, back_body s =
     euler.Walk (euler.ti s - h) (back_rule (euler.ti s) (euler.yi s))
       (euler.t_acc s ++ [euler.ti s - h])
       (euler.y_acc s ++ [back_rule (euler.ti s) (euler.yi s)])) ->
  (forall s, fwd_body s =
     euler.Walk (euler.ti s + h) (fwd_rule (euler.ti s) (euler.yi s))
       (euler.t_acc s ++ [euler.ti s + h])
       (euler.y_acc s ++ [fwd_rule (euler.ti s) (euler.yi s)])) ->
  (_ <- py_assert (Qle_bool a t0 && Qle_bool t0 b) ;;
   x <- py_div (t0 - a) h ;;
   let back := for_range (py_round x) back_body (euler.Walk t0 y0 [] []) in
   let '(t_list, y_list) :=
     euler.splice (euler.t_acc back) (euler.y_acc back) t0 y0 in
   x <- py_div (b - t0) h ;;
   let fwd := for_range (py_round x) fwd_body (euler.Walk t0 y0 t_list y_list) in
   ret (euler.t_acc fwd, euler.y_acc fwd))
  = driver back_rule fwd_rule a b t0 y0 h.
Proof.
  intros Hb Hf. unfold driver, py_assert, py_div.
  destruct (Qle_bool a t0 && Qle_bool t0 b); [|reflexivity].
  destruct (Qeq_bool h 0); [reflexivity|].
  cbn [negb bind ret]. unfold for_range.
  destruct (@repeat_body_backward h back_rule back_body Hb
              (Z.to_nat (py_round ((t0 - a) / h))) t0 y0 [] []) as [Ht Hy].
  cbn [app] in Ht, Hy. rewrite Ht, Hy, splice_buffer.
  destruct (@repeat_body_forward h fwd_rule fwd_body Hf
              (Z.to_nat (py_round ((b - t0) / h))) t0 y0
              (map fst (rev (backward_steps back_rule h
                 (Z.to_nat (py_round ((t0 - a) / h))) t0 y0) ++ [(t0, y0)]))
              (map snd (rev (backward_steps back_rule h
                 (Z.to_nat (py_round ((t0 - a) / h))) t0 y0) ++ [(t0, y0)])))
    as [Ht' Hy'].
  rewrite Ht', Hy'. unfold protocol, samples, backward_count, forward_count.
  now rewrite !map_app, <- !app_assoc.
Qed.

Lemma euler_explicit_driver f a b t0 y0 h :
  euler.euler_explicit f a b t0 y0 h =
  driver (explicit_back f h) (explicit_fwd f h) a b t0 y0 h.
Proof. unfold euler.euler_explicit. now apply solver_shape. Qed.

Lemma euler_improved_driver f a b t0 y0 h :
  euler.euler_improved f a b t0 y0 h =
  driver (improved_back f h) (improved_fwd f h) a b t0 y0 h.
Proof. unfold euler.euler_improved. now apply solver_shape. Qed.

Lemma euler_implicit_driver f a b t0 y0 h threshold epochs :
  euler.euler_implicit f a b t0 y0 h threshold epochs =
  driver (fun ti yi => accepted (implicit_back_loop f h threshold epochs ti yi))
         (fun ti yi => accepted (implicit_fwd_loop f h threshold epochs ti yi))
         a b t0 y0 h.
Proof.
  unfold euler.euler_implicit. apply solver_shape; intros s;
    unfold accepted, implicit_back_loop, implicit_fwd_loop; cbv zeta;
    destruct (euler.fixed_point_iteration _ _ _ _ _) as [[y_ y__] epoch];
    reflexivity.
Qed.

Lemma euler_trapezium_driver f a b t0 y0 h threshold epochs :
  euler.euler_trapezium f a b t0 y0 h threshold epochs =
  driver (fun ti yi => accepted (trapezium_back_loop f h threshold epochs ti yi))
         (fun ti yi => accepted (trapezium_fwd_loop f h threshold epochs ti yi))
         a b t0 y0 h.
Proof.
  unfold euler.euler_trapezium. apply solver_shape; intros s;
    unfold accepted, trapezium_back_loop, trapezium_fwd_loop; cbv zeta;
    destruct (euler.fixed_point_iteration _ _ _ _ _) as [[y_ y__] epoch];
    reflexivity.
Qed.

(** * Facts about Python's [round] *)

Lemma Qlt_bool_iff (x y : Q) : Qlt_bool x y = true <-> x < y.
Proof.
  unfold Qlt_bool. rewrite Qlt_alt.
  destruct (x ?= y); split; intro H; try reflexivity; discriminate.
Qed.

Lemma py_round_near (x : Q) :
  inject_Z (py_round x) - (1 # 2) <= x /\ x <= inject_Z (py_round x) + (1 # 2).
Proof.
  unfold py_round.
  pose proof (Qfloor_le x) as Hlo. pose proof (Qlt_floor x) as Hhi.
  rewrite inject_Z_plus in Hhi. change (inject_Z 1) with 1 in Hhi.
  destruct (x - inject_Z (Qfloor x) ?= 1 # 2) eqn:Hc.
  - apply Qeq_alt in Hc.
    destruct (Z.even (Qfloor x));
      [|rewrite inject_Z_plus; change (inject_Z 1) with 1]; split; lra.
  - apply Qlt_alt in Hc. split; lra.
  - apply Qgt_alt in Hc. rewrite inject_Z_plus. change (inject_Z 1) with 1.
    split; lra.
Qed.

Lemma py_round_comp (x y : Q) : x == y -> py_round x = py_round y.
Proof.
  intros E. unfold py_round.
  rewrite (Qfloor_comp _ _ E).
  assert (Hc : (x - inject_Z (Qfloor y) ?= 1 # 2) = (y - inject_Z (Qfloor y) ?= 1 # 2))
    by now rewrite E.
  now rewrite Hc.
Qed.

Lemma py_round_Z (n : Z) : py_round (inject_Z n) = n.
Proof.
  unfold py_round. rewrite Qfloor_Z.
  assert (Hc : (inject_Z n - inject_Z n ?= 1 # 2) = Lt)
    by (rewrite <- Qlt_alt; lra).
  now rewrite Hc.
Qed.

Lemma py_round_nonneg (x : Q) : 0 <= x -> (0 <= py_round x)%Z.
Proof.
  intros Hx. destruct (py_round_near x) as [_ Hhi].
  destruct (Z_lt_le_dec (py_round x) 0) as [Hneg|]; [|assumption].
  exfalso.
  assert (H1 : inject_Z (py_round x) <= inject_Z (-1))
    by (rewrite <- Zle_Qle; lia).
  change (inject_Z (-1)) with (-1 # 1) in H1. lra.
Qed.


Lemma Qdiv_nonneg (x h : Q) : 0 <= x -> 0 < h -> 0 <= x / h.
Proof.
  intros Hx Hh. unfold Qdiv.
  apply Qmult_le_0_compat; [assumption|].
  apply Qlt_le_weak, Qinv_lt_0_compat, Hh.
Qed.


(** * Facts about the fixed-point loop *)

Lemma fixed_point_iteration_run (g : Q -> Q) (threshold : Q) (epochs epoch : Z) (y_ : Q) :
  exists n : nat,
    euler.fixed_point_iteration g threshold epochs epoch y_ =
      (iterate g n y_, iterate g (S n) y_, (epoch + Z.of_nat (S n))%Z) /\
    euler.stop_test threshold epochs (epoch + Z.of_nat (S n))
      (iterate g (S n) y_) (iterate g n y_) = true /\
    (forall k : nat, (k < n)%nat ->
       euler.stop_test threshold epochs (epoch + Z.of_nat (S k))
         (iterate g (S k) y_) (iterate g k y_) = false).
Proof.
  funelim (euler.fixed_point_iteration g threshold epochs epoch y_).
  - exists 0%nat. cbn [iterate].
    replace (epoch + Z.of_nat 1)%Z with (epoch + 1)%Z by lia.
    repeat split; [assumption | intros k Hk; lia].
  - destruct H as (n & Hrun & Hstop & Hbefore).
    exists (S n). rewrite Hrun.
    replace (epoch + 1 + Z.of_nat (S n))%Z with (epoch + Z.of_nat (S (S n)))%Z in * by lia.
    cbn [iterate] in *. repeat split; [assumption|].
    intros [|k] Hk.
    + cbn [iterate]. replace (epoch + Z.of_nat 1)%Z with (epoch + 1)%Z by lia.
      assumption.
    + specialize (Hbefore k ltac:(lia)).
      replace (epoch + 1 + Z.of_nat (S k))%Z with (epoch + Z.of_nat (S (S k)))%Z in Hbefore by lia.
      exact Hbefore.
Qed.

Lemma iterate_S (g : Q -> Q) (n : nat) (y : Q) :
  iterate g (S n) y = g (iterate g n y).
Proof.
  revert y. induction n as [|n IH]; intros y; [reflexivity|].
  cbn [iterate] in *. now rewrite IH.
Qed.

Lemma stop_test_true (threshold : Q) (epochs epoch : Z) (y__ y_ : Q) :
  euler.stop_test threshold epochs epoch y__ y_ = true <->
  Qabs (y__ - y_) < threshold \/ (epochs < epoch)%Z.
Proof.
  unfold euler.stop_test. rewrite orb_true_iff, Qlt_bool_iff, Z.ltb_lt. tauto.
Qed.

Lemma stop_test_false (threshold : Q) (epochs epoch : Z) (y__ y_ : Q) :
  euler.stop_test threshold epochs epoch y__ y_ = false <->
  ~ Qabs (y__ - y_) < threshold /\ (epoch <= epochs)%Z.
Proof.
  unfold euler.stop_test. rewrite orb_false_iff, Z.ltb_ge.
  rewrite <- Qlt_bool_iff. destruct (Qlt_bool (Qabs (y__ - y_)) threshold);
    intuition congruence.
Qed.

(** * Facts about the protocol *)

Lemma backward_steps_length rule h n t y :
  length (backward_steps rule h n t y) = n.
Proof.
  revert t y. induction n as [|n IH]; intros t y; cbn; [|rewrite IH]; reflexivity.
Qed.











Lemma backward_count_at_left_bound (a t0 h : Q) :
  t0 == a -> backward_count a t0 h = 0%nat.
Proof.
  intros E. unfold backward_count.
  assert (H0 : (t0 - a) / h == inject_Z 0).
  { unfold Qdiv. setoid_replace (t0 - a) with 0 by lra.
    now rewrite Qmult_0_l. }
  now rewrite (py_round_comp _ _ H0), py_round_Z.
Qed.

(** * The fixed-point loop of the implicit solvers *)

(** C1, as stated, fails, whichever test ends the loop.  With [f(t, y) = y],
    [h = 1/2] and [epochs = 0] the single forward step of [euler_implicit]
    from [(0, 1)] computes [y_ = 3/2] and then [y__ = 7/4], leaves the loop on
    the epoch cap, and appends [3/2].  With [h = 1/8], [threshold = 1] and
    [epochs = 100] it computes [y_ = 9/8] and [y__ = 73/64], leaves the loop
    on the threshold, and appends [9/8].  The sample is [y_], not the last
    computed [y__]. *)
Lemma implicit_step_keeps_y_ :
  let r := implicit_fwd_loop (fun _ y => y) (1 # 2) euler.default_threshold 0 0 1 in
  let r' := implicit_fwd_loop (fun _ y => y) (1 # 8) 1 100 0 1 in
  (euler.euler_implicit (fun _ y => y) 0 (1 # 2) 0 1 (1 # 2) euler.default_threshold 0
     = inr ([0; 0 + (1 # 2)], [1; accepted r]) /\
   iterations r = 1%Z /\
   accepted r == 3 # 2 /\
   last_y__ r == 7 # 4 /\
   ~ Qabs (last_y__ r - accepted r) < euler.default_threshold /\
   ~ accepted r == last_y__ r) /\
  (euler.euler_implicit (fun _ y => y) 0 (1 # 8) 0 1 (1 # 8) 1 100
     = inr ([0; 0 + (1 # 8)], [1; accepted r']) /\
   iterations r' = 1%Z /\
   accepted r' == 9 # 8 /\
   last_y__ r' == 73 # 64 /\
   Qabs (last_y__ r' - accepted r') < 1 /\
   ~ accepted r' == last_y__ r').
Proof.
  cbv zeta. repeat split; try (vm_compute; reflexivity);
    vm_compute; discriminate.
Qed.

(** C1 (amended).  Every run of the loop, from any seed and for any
    right-hand side [g], stops at the first iteration [n + 1] at which
    [|y__ - y_| < threshold] or [epoch > epochs]; whichever of the two
    triggered, the value handed to the trajectory is the final [y_], the
    iterate [g^n(seed)] from which the last [y__ = g(y_)] was computed; and
    this is the value [euler_implicit] and [euler_trapezium] append at each
    backward and forward step. *)
Theorem fixed_point_accepts_final_y_ :
  (forall (g : Q -> Q) (threshold : Q) (epochs : Z) (seed : Q),
     let r := euler.fixed_point_iteration g threshold epochs 0 seed in
     exists n : nat,
       iterations r = Z.of_nat (S n) /\
       accepted r = iterate g n seed /\
       last_y__ r = g (accepted r) /\
       (Qabs (last_y__ r - accepted r) < threshold \/ (epochs < iterations r)%Z) /\
       (forall k : nat, (k < n)%nat ->
          ~ Qabs (iterate g (S k) seed - iterate g k seed) < threshold /\
          (Z.of_nat (S k) <= epochs)%Z)) /\
  (forall f a b t0 y0 h threshold epochs,
     euler.euler_implicit f a b t0 y0 h threshold epochs =
     driver (fun ti yi => accepted (implicit_back_loop f h threshold epochs ti yi))
            (fun ti yi => accepted (implicit_fwd_loop f h threshold epochs ti yi))
            a b t0 y0 h) /\
  (forall f a b t0 y0 h threshold epochs,
     euler.euler_trapezium f a b t0 y0 h threshold epochs =
     driver (fun ti yi => accepted (trapezium_back_loop f h threshold epochs ti yi))
            (fun ti yi => accepted (trapezium_fwd_loop f h threshold epochs ti yi))
            a b t0 y0 h).
Proof.
  split; [|split].
  - intros g threshold epochs seed r.
    destruct (fixed_point_iteration_run g threshold epochs 0 seed)
      as (n & Hrun & Hstop & Hbefore).
    exists n. subst r. rewrite Hrun.
    unfold iterations, accepted, last_y__. cbn [fst snd].
    rewrite Z.add_0_l in *.
    repeat split.
    + apply iterate_S.
    + now apply stop_test_true.
    + specialize (Hbefore k H). rewrite Z.add_0_l in Hbefore.
      now apply stop_test_false in Hbefore.
    + specialize (Hbefore k H). rewrite Z.add_0_l in Hbefore.
      now apply stop_test_false in Hbefore.
  - apply euler_implicit_driver.
  - apply euler_trapezium_driver.
Qed.

(** * The bidirectional stepping protocol *)



(** * Precondition violations *)





(** * The time grid of a trajectory *)

Lemma Qnat_S (n : nat) : Qnat (S n) == Qnat n + 1.
Proof.
  unfold Qnat. rewrite Nat2Z.inj_succ. unfold Z.succ.
  now rewrite inject_Z_plus.
Qed.

Lemma Qnat_sub (n m : nat) : (m <= n)%nat -> Qnat (n - m) == Qnat n - Qnat m.
Proof.
  intros H. unfold Qnat. rewrite Nat2Z.inj_sub by assumption.
  unfold Z.sub. rewrite inject_Z_plus, inject_Z_opp. reflexivity.
Qed.


Lemma backward_steps_grid rule h n t y k p :
  nth_error (backward_steps rule h n t y) k = Some p ->
  fst p == t - (Qnat k + 1) * h.
Proof.
  revert t y k. induction n as [|n IH]; intros t y k Hk; cbn in Hk.
  - destruct k; discriminate.
  - destruct k as [|k]; cbn in Hk.
    + injection Hk as <-. cbn [fst]. change (Qnat 0) with 0. lra.
    + apply IH in Hk. rewrite Hk, Qnat_S. lra.
Qed.

Lemma forward_steps_grid rule h n t y k p :
  nth_error (forward_steps rule h n t y) k = Some p ->
  fst p == t + (Qnat k + 1) * h.
Proof.
  revert t y k. induction n as [|n IH]; intros t y k Hk; cbn in Hk.
  - destruct k; discriminate.
  - destruct k as [|k]; cbn in Hk.
    + injection Hk as <-. cbn [fst]. change (Qnat 0) with 0. lra.
    + apply IH in Hk. rewrite Hk, Qnat_S. lra.
Qed.

(** Sample [i] of a trajectory sits at [t0 + (i - nb) * h], where [nb] is the
    number of backward steps. *)
Lemma samples_grid back fwd a b t0 y0 h i p :
  nth_error (samples back fwd a b t0 y0 h) i = Some p ->
  fst p == t0 + (Qnat i - Qnat (backward_count a t0 h)) * h.
Proof.
  unfold samples. set (nb := backward_count a t0 h).
  rewrite nth_error_app, length_rev, backward_steps_length.
  destruct (i <? nb)%nat eqn:E.
  - apply Nat.ltb_lt in E.
    rewrite nth_error_rev, backward_steps_length.
    apply Nat.ltb_lt in E. rewrite E. apply Nat.ltb_lt in E.
    intros Hp. apply backward_steps_grid in Hp.
    rewrite Hp, Qnat_sub, Qnat_S by lia. lra.
  - apply Nat.ltb_ge in E.
    destruct (i - nb)%nat as [|k] eqn:Ek; cbn [app nth_error].
    + intros Hp. injection Hp as <-. cbn [fst].
      replace i with nb by lia. lra.
    + intros Hp. apply forward_steps_grid in Hp.
      assert (Hi : Qnat i == Qnat nb + Qnat (S k)).
      { rewrite <- Ek, Qnat_sub by lia. lra. }
      rewrite Hp, Hi, Qnat_S. lra.
Qed.

(** * Sequences, frames and loops of the harness *)

Lemma label_eqb_sym (l1 l2 : label) : label_eqb l1 l2 = label_eqb l2 l1.
Proof.
  destruct l1 as [|h1], l2 as [|h2]; cbn; try reflexivity.
  destruct (Qeq_bool h1 h2) eqn:E1, (Qeq_bool h2 h1) eqn:E2; try reflexivity.
  - apply Qeq_bool_iff in E1. symmetry in E1. apply Qeq_bool_iff in E1. congruence.
  - apply Qeq_bool_iff in E2. symmetry in E2. apply Qeq_bool_iff in E2. congruence.
Qed.

Lemma label_eqb_trans (l1 l2 l3 : label) :
  label_eqb l1 l2 = true -> label_eqb l2 l3 = true -> label_eqb l1 l3 = true.
Proof.
  destruct l1, l2, l3; cbn; try congruence.
  rewrite !Qeq_bool_iff. intros E1 E2. now rewrite E1.
Qed.

Lemma get_set_column (cols : list (label * list cell)) (l l' : label) (v : list cell) :
  get_column (set_column cols l v) l' =
  if label_eqb l l' then Some v else get_column cols l'.
Proof.
  induction cols as [|[k c] cols IH]; cbn.
  - reflexivity.
  - destruct (label_eqb k l) eqn:Ekl; cbn.
    + destruct (label_eqb l l') eqn:Ell.
      * now rewrite (label_eqb_trans _ _ _ Ekl Ell).
      * destruct (label_eqb k l') eqn:Ekl'; [|reflexivity].
        rewrite label_eqb_sym in Ekl.
        rewrite (label_eqb_trans _ _ _ Ekl Ekl') in Ell. discriminate.
    + destruct (label_eqb k l') eqn:Ekl'; [|exact IH].
      destruct (label_eqb l l') eqn:Ell; [|reflexivity].
      rewrite label_eqb_sym in Ell.
      rewrite (label_eqb_trans _ _ _ Ekl' Ell) in Ekl. discriminate.
Qed.

Lemma df_setitem_fresh (l : label) (v : list cell) :
  df_setitem pd_DataFrame l v = inr (mkDataFrame (length v) [(l, v)]).
Proof.
  unfold df_setitem, pd_DataFrame. cbn [nrows columns Nat.eqb andb map set_column].
  destruct v; reflexivity.
Qed.

Lemma df_setitem_fit (df : DataFrame) (l : label) (v : list cell) :
  length v = nrows df ->
  df_setitem df l v = inr (mkDataFrame (nrows df) (set_column (columns df) l v)).
Proof.
  intros Hlen. unfold df_setitem.
  destruct ((nrows df =? 0)%nat && nonempty v) eqn:E.
  - apply andb_true_iff in E. destruct E as [E1 E2].
    apply Nat.eqb_eq in E1. destruct v; [discriminate|]. cbn in Hlen. lia.
  - now rewrite Hlen, Nat.eqb_refl.
Qed.

Lemma df_setitem_rows (df df' : DataFrame) (l : label) (v : list cell) :
  (0 < nrows df)%nat -> df_setitem df l v = inr df' ->
  df' = mkDataFrame (nrows df) (set_column (columns df) l v).
Proof.
  intros Hpos. unfold df_setitem.
  destruct (nrows df) as [|n] eqn:En; [lia|]. cbn [Nat.eqb andb].
  destruct (length v =? S n)%nat; intros H; [|discriminate].
  now injection H as <-.
Qed.

(** An invariant on the elements processed so far and the state reached. *)
Lemma for_each_invariant {A S : Type} (I : list A -> S -> Prop)
    (body : A -> S -> result S) (l : list A) (s0 s' : S) :
  I [] s0 ->
  (forall done x s t, I done s -> body x s = inr t -> I (done ++ [x]) t) ->
  for_each l body s0 = inr s' -> I l s'.
Proof.
  intros H0 Hstep.
  assert (G : forall l done s, I done s -> for_each l body s = inr s' ->
                               I (done ++ l) s').
  { clear l H0. induction l as [|x l IH]; intros done s Hs Hrun; cbn in Hrun.
    - injection Hrun as <-. now rewrite app_nil_r.
    - destruct (body x s) as [e|t] eqn:Hb; [discriminate|]. cbn in Hrun.
      replace (done ++ x :: l) with ((done ++ [x]) ++ l)
        by now rewrite <- app_assoc.
      eapply IH; [|exact Hrun]. eapply Hstep; eassumption. }
  intros Hrun. exact (G l [] s0 H0 Hrun).
Qed.





Lemma py_index_nonneg (len : nat) (k : nat) (j : nat) :
  py_index len (Z.of_nat k) = inr j <-> (k < len)%nat /\ j = k.
Proof.
  unfold py_index.
  destruct (0 <=? Z.of_nat k)%Z eqn:E0; [|apply Z.leb_gt in E0; lia].
  destruct (Z.of_nat k <? Z.of_nat len)%Z eqn:E1; cbn [andb].
  - apply Z.ltb_lt in E1. rewrite Nat2Z.id. unfold ret.
    split; [intros H; injection H as <-; split; [lia|reflexivity]
           | intros [_ ->]; reflexivity].
  - apply Z.ltb_ge in E1.
    destruct (- Z.of_nat len <=? Z.of_nat k)%Z; cbn [andb].
    + destruct (Z.of_nat k <? 0)%Z eqn:E2; [apply Z.ltb_lt in E2; lia|].
      split; [discriminate | intros [H _]; lia].
    + split; [discriminate | intros [H _]; lia].
Qed.

Lemma list_getitem_first {A : Type} (l : list A) (d : A) :
  l <> [] -> list_getitem l 0 = inr (hd d l).
Proof. destruct l as [|x l]; [congruence | reflexivity]. Qed.


Lemma np_linspace_length (start stop : Q) (num : Z) (axis : list Q) :
  np_linspace start stop num = inr axis ->
  (0 <= num)%Z /\ length axis = Z.to_nat num.
Proof.
  unfold np_linspace.
  destruct (num <? 0)%Z eqn:E0; [discriminate|]. apply Z.ltb_ge in E0.
  destruct (num =? 0)%Z eqn:E1.
  { apply Z.eqb_eq in E1. intros H. injection H as <-. subst. now split. }
  destruct (num =? 1)%Z eqn:E2.
  { apply Z.eqb_eq in E2. intros H. injection H as <-. subst. now split. }
  apply Z.eqb_neq in E1, E2. intros H. injection H as <-.
  rewrite length_app, length_map, length_seq. cbn. split; lia.
Qed.

Lemma np_linspace_defined (start stop : Q) (num : Z) :
  (0 <= num)%Z -> exists axis, np_linspace start stop num = inr axis.
Proof.
  intros H. unfold np_linspace.
  destruct (num <? 0)%Z eqn:E0; [apply Z.ltb_lt in E0; lia|].
  destruct (num =? 0)%Z; [eexists; reflexivity|].
  destruct (num =? 1)%Z; eexists; reflexivity.
Qed.




(** * The comparison harness of [analysis.py] *)

Lemma supplied_nonempty (hs : list Q) : supplied hs <> [].
Proof. destruct hs; discriminate. Qed.


Lemma analyse_step_len_unfold f method a b t0 y0 hs :
  analysis.analyse_step_len f method a b t0 y0 hs =
  (space <- list_getitem (supplied hs) (-1) ;;
   x <- py_div (b - a) space ;;
   axis <- np_linspace a b (py_round x + 1) ;;
   df <- df_setitem pd_DataFrame Lt_axis (map Some axis) ;;
   for_each (supplied hs) (column_step f method a b t0 y0 space) df).
Proof. reflexivity. Qed.







Lemma Qeq_bool_false (x y : Q) : ~ x == y -> Qeq_bool x y = false.
Proof.
  intros H. destruct (Qeq_bool x y) eqn:E; [|reflexivity].
  apply Qeq_bool_iff in E. contradiction.
Qed.


(** * Incommensurate step sizes *)



(** * Columns of the comparison table *)











(** With [t0 == a] there is no backward pass and sample [j] of a solver's
    trajectory has the time [a + j * h]. *)
Lemma driver_times_from_left_bound back fwd a b t0 y0 h ts ys j t :
  t0 == a ->
  driver back fwd a b t0 y0 h = inr (ts, ys) ->
  nth_error ts j = Some t ->
  t == a + Qnat j * h.
Proof.
  intros Ha Hrun Hj. unfold driver in Hrun.
  destruct (negb (Qle_bool a t0 && Qle_bool t0 b)); [discriminate|].
  destruct (Qeq_bool h 0); [discriminate|].
  unfold protocol in Hrun. injection Hrun as <- <-.
  rewrite nth_error_map in Hj.
  destruct (nth_error (samples back fwd a b t0 y0 h) j) as [p|] eqn:Hp;
    [|discriminate].
  injection Hj as <-.
  rewrite (samples_grid back fwd a b t0 y0 h j p Hp).
  rewrite (backward_count_at_left_bound a t0 h Ha), Ha.
  change (Qnat 0) with 0. ring.
Qed.




(** * The reference resolution of the two harness variants *)

Lemma euler_analyse_step_len_unfold f method a b t0 y0 hs :
  euler.analyse_step_len f method a b t0 y0 hs =
  (space <- list_getitem (supplied hs) 0 ;;
   x <- py_div (b - a) space ;;
   axis <- np_linspace a b (py_round x + 1) ;;
   df <- df_setitem pd_DataFrame Lt_axis (map Some axis) ;;
   for_each (supplied hs) (euler_column_step f method a b t0 y0 space) df).
Proof. reflexivity. Qed.







(** * Further properties of the solvers *)








(** * Degenerate settings of the fixed-point loop *)

Lemma backward_steps_ext (r r' : Q -> Q -> Q) h n t y :
  (forall t y, r t y = r' t y) ->
  backward_steps r h n t y = backward_steps r' h n t y.
Proof.
  intros E. revert t y. induction n as [|n IH]; intros t y; cbn; [reflexivity|].
  now rewrite E, IH.
Qed.

Lemma forward_steps_ext (r r' : Q -> Q -> Q) h n t y :
  (forall t y, r t y = r' t y) ->
  forward_steps r h n t y = forward_steps r' h n t y.
Proof.
  intros E. revert t y. induction n as [|n IH]; intros t y; cbn; [reflexivity|].
  now rewrite E, IH.
Qed.

Lemma driver_ext (back back' fwd fwd' : Q -> Q -> Q) a b t0 y0 h :
  (forall t y, back t y = back' t y) ->
  (forall t y, fwd t y = fwd' t y) ->
  driver back fwd a b t0 y0 h = driver back' fwd' a b t0 y0 h.
Proof.
  intros Eb Ef. unfold driver, protocol, samples.
  now rewrite (backward_steps_ext back back' h _ t0 y0 Eb),
    (forward_steps_ext fwd fwd' h _ t0 y0 Ef).
Qed.

Lemma Qabs_not_below (x threshold : Q) : threshold <= 0 -> ~ Qabs x < threshold.
Proof. intros Ht H. pose proof (Qabs_nonneg x). lra. Qed.

(** Without an epoch budget the loop body runs once and the seed is kept. *)
Lemma loop_without_epochs (g : Q -> Q) (threshold : Q) (epochs : Z) (seed : Q) :
  (epochs <= 0)%Z ->
  euler.fixed_point_iteration g threshold epochs 0 seed = (seed, g seed, 1%Z).
Proof.
  intros He.
  destruct (fixed_point_iteration_run g threshold epochs 0 seed)
    as (n & Hrun & _ & Hbefore).
  destruct n as [|n]; [exact Hrun|].
  specialize (Hbefore 0%nat ltac:(lia)). apply stop_test_false in Hbefore. lia.
Qed.

(** With a threshold that no distance is below, the loop runs to the cap. *)
Lemma loop_without_threshold (g : Q -> Q) (threshold : Q) (epochs : Z) (seed : Q) :
  threshold <= 0 -> (0 <= epochs)%Z ->
  euler.fixed_point_iteration g threshold epochs 0 seed =
  (iterate g (Z.to_nat epochs) seed, iterate g (S (Z.to_nat epochs)) seed,
   (epochs + 1)%Z).
Proof.
  intros Ht He.
  destruct (fixed_point_iteration_run g threshold epochs 0 seed)
    as (n & Hrun & Hstop & Hbefore).
  apply stop_test_true in Hstop.
  destruct Hstop as [Hstop|Hstop]; [now apply Qabs_not_below in Hstop|].
  assert (Hn : n = Z.to_nat epochs).
  { destruct n as [|n]; [lia|].
    specialize (Hbefore n ltac:(lia)). apply stop_test_false in Hbefore. lia. }
  rewrite Hrun, Hn. f_equal. lia.
Qed.

(** X4.  With an epoch cap of zero or less the loop of the implicit solvers
    stops after its first test and keeps the explicit-Euler seed: for every
    input, [euler_implicit] and [euler_trapezium] then return what
    [euler_explicit] returns. *)
Theorem no_epochs_is_explicit_euler f a b t0 y0 h threshold epochs :
  (epochs <= 0)%Z ->
  euler.euler_implicit f a b t0 y0 h threshold epochs =
    euler.euler_explicit f a b t0 y0 h /\
  euler.euler_trapezium f a b t0 y0 h threshold epochs =
    euler.euler_explicit f a b t0 y0 h.
Proof.
  intros He.
  rewrite euler_explicit_driver, euler_implicit_driver, euler_trapezium_driver.
  split; apply driver_ext; intros t y;
    unfold implicit_back_loop, implicit_fwd_loop,
      trapezium_back_loop, trapezium_fwd_loop;
    rewrite (loop_without_epochs _ _ _ _ He); reflexivity.
Qed.

Lemma no_epochs_is_explicit_euler_witness :
  euler.euler_implicit euler.f2 0 1 (1 # 2) 1 (1 # 8) euler.default_threshold 0 =
    euler.euler_explicit euler.f2 0 1 (1 # 2) 1 (1 # 8) /\
  euler.euler_trapezium euler.f2 0 1 (1 # 2) 1 (1 # 8) euler.default_threshold 0 =
    euler.euler_explicit euler.f2 0 1 (1 # 2) 1 (1 # 8).
Proof.
  apply (no_epochs_is_explicit_euler euler.f2 0 1 (1 # 2) 1 (1 # 8)
           euler.default_threshold 0).
  lia.
Defined.

(** X5.  The improved Euler method is the trapezoidal method cut off after
    one correction: with a threshold of zero or less and [epochs = 1],
    [euler_trapezium] returns, for every input, what [euler_improved]
    returns. *)
Theorem one_correction_is_improved_euler f a b t0 y0 h threshold :
  threshold <= 0 ->
  euler.euler_trapezium f a b t0 y0 h threshold 1 =
  euler.euler_improved f a b t0 y0 h.
Proof.
  intros Ht.
  rewrite euler_trapezium_driver, euler_improved_driver.
  apply driver_ext; intros t y;
    unfold trapezium_back_loop, trapezium_fwd_loop;
    rewrite (loop_without_threshold _ threshold 1 _ Ht ltac:(lia)); reflexivity.
Qed.

Lemma one_correction_is_improved_euler_witness :
  euler.euler_trapezium euler.f1 0 1 (1 # 2) 1 (1 # 8) 0 1 =
  euler.euler_improved euler.f1 0 1 (1 # 2) 1 (1 # 8).
Proof.
  apply (one_correction_is_improved_euler euler.f1 0 1 (1 # 2) 1 (1 # 8) 0).
  discriminate.
Defined.

(** X6.  A threshold of zero or less switches the convergence test off: each
    step's loop then runs exactly [epochs + 1] times and accepts the
    [epochs]-th iterate of its right-hand side, started from the
    explicit-Euler seed. *)
Theorem nonpositive_threshold_runs_to_cap f h threshold epochs ti yi :
  threshold <= 0 -> (0 <= epochs)%Z ->
  let full (r : Q * Q * Z) (g : Q -> Q) (seed : Q) :=
    iterations r = (epochs + 1)%Z /\
    accepted r = iterate g (Z.to_nat epochs) seed in
  full (implicit_back_loop f h threshold epochs ti yi)
       (fun y_ => yi - h * f (ti - h) y_) (yi - h * f ti yi) /\
  full (implicit_fwd_loop f h threshold epochs ti yi)
       (fun y_ => yi + h * f (ti + h) y_) (yi + h * f ti yi) /\
  full (trapezium_back_loop f h threshold epochs ti yi)
       (fun y_ => yi - (1 # 2) * h * (f ti yi + f (ti - h) y_)) (yi - h * f ti yi) /\
  full (trapezium_fwd_loop f h threshold epochs ti yi)
       (fun y_ => yi + (1 # 2) * h * (f ti yi + f (ti + h) y_)) (yi + h * f ti yi).
Proof.
  intros Ht He full.
  unfold full, implicit_back_loop, implicit_fwd_loop,
    trapezium_back_loop, trapezium_fwd_loop.
  rewrite !(loop_without_threshold _ _ _ _ Ht He).
  unfold iterations, accepted. cbn [fst snd]. repeat split.
Qed.

Lemma nonpositive_threshold_runs_to_cap_witness :
  iterations (implicit_fwd_loop euler.f1 (1 # 8) 0 3 0 1) = (3 + 1)%Z /\
  accepted (implicit_fwd_loop euler.f1 (1 # 8) 0 3 0 1) =
    iterate (fun y_ => 1 + (1 # 8) * euler.f1 (0 + (1 # 8)) y_) (Z.to_nat 3)
      (1 + (1 # 8) * euler.f1 0 1).
Proof.
  refine (proj1 (proj2 (nonpositive_threshold_runs_to_cap euler.f1 (1 # 8) 0 3 0 1
                          _ _))).
  - discriminate.
  - lia.
Defined.

(** X7.  A step that stops within the epoch budget has converged: when the
    loop ran no more than [epochs] times, the accepted value satisfies the
    step's implicit equation up to the threshold. *)
Theorem converged_step_solves_equation f h threshold epochs ti yi :
  let ib := implicit_back_loop f h threshold epochs ti yi in
  let iw := implicit_fwd_loop f h threshold epochs ti yi in
  let tb := trapezium_back_loop f h threshold epochs ti yi in
  let tw := trapezium_fwd_loop f h threshold epochs ti yi in
  ((iterations ib <= epochs)%Z ->
   Qabs (yi - h * f (ti - h) (accepted ib) - accepted ib) < threshold) /\
  ((iterations iw <= epochs)%Z ->
   Qabs (yi + h * f (ti + h) (accepted iw) - accepted iw) < threshold) /\
  ((iterations tb <= epochs)%Z ->
   Qabs (yi - (1 # 2) * h * (f ti yi + f (ti - h) (accepted tb)) - accepted tb)
     < threshold) /\
  ((iterations tw <= epochs)%Z ->
   Qabs (yi + (1 # 2) * h * (f ti yi + f (ti + h) (accepted tw)) - accepted tw)
     < threshold).
Proof.
  assert (H : forall g seed,
    let r := euler.fixed_point_iteration g threshold epochs 0 seed in
    (iterations r <= epochs)%Z -> Qabs (g (accepted r) - accepted r) < threshold).
  { intros g seed r. subst r.
    destruct (fixed_point_iteration_run g threshold epochs 0 seed)
      as (n & Hrun & Hstop & _).
    rewrite Hrun. unfold iterations, accepted. cbn [fst snd]. intros Hle.
    apply stop_test_true in Hstop. rewrite iterate_S in Hstop.
    destruct Hstop as [Hstop|Hstop]; [exact Hstop | lia]. }
  cbv zeta. repeat split; intros Hle.
  - exact (H (fun y_ => yi - h * f (ti - h) y_) _ Hle).
  - exact (H (fun y_ => yi + h * f (ti + h) y_) _ Hle).
  - exact (H (fun y_ => yi - (1 # 2) * h * (f ti yi + f (ti - h) y_)) _ Hle).
  - exact (H (fun y_ => yi + (1 # 2) * h * (f ti yi + f (ti + h) y_)) _ Hle).
Qed.

Lemma converged_step_solves_equation_witness :
  Qabs (1 + (1 # 8) *
          (fun _ y => y) (0 + (1 # 8))
            (accepted (implicit_fwd_loop (fun _ y => y) (1 # 8) 1 100 0 1))
        - accepted (implicit_fwd_loop (fun _ y => y) (1 # 8) 1 100 0 1)) < 1.
Proof.
  refine (proj1 (proj2 (converged_step_solves_equation (fun _ y => y) (1 # 8) 1 100 0 1))
            _).
  vm_compute. discriminate.
Defined.

(** * The timing and memory harnesses *)

Lemma repeated_calls (m : result trajectory) (n : nat) :
  for_each (repeat tt n) (fun _ _ => ty <- m ;; ret tt) tt =
  match m, n with
  | inl e, S _ => inl e
  | _, _ => inr tt
  end.
Proof.
  destruct m as [e|tr].
  - destruct n; reflexivity.
  - induction n as [|n IH]; [reflexivity|]. cbn. destruct n; exact IH.
Qed.

(** X11.  With a positive repetition count [analyse_time] fails exactly when
    the solver call fails, and then with the solver's own error; otherwise it
    returns the difference of the two clock readings, in milliseconds,
    divided by the repetition count.  [analyse_memory] likewise returns
    nothing when the solver call succeeds and fails with the solver's error
    when it fails. *)
Theorem harness_follows_solver clock f method a b t0 y0 h epochs :
  (0 < epochs)%Z ->
  (forall tr,
     method f a b t0 y0 h = inr tr ->
     analysis.analyse_time clock f method a b t0 y0 h epochs =
       inr ((clock 1%nat * 1000 - clock 0%nat * 1000) / inject_Z epochs) /\
     analysis.analyse_memory f method a b t0 y0 h = inr tt) /\
  (forall e,
     method f a b t0 y0 h = inl e ->
     analysis.analyse_time clock f method a b t0 y0 h epochs = inl e /\
     analysis.analyse_memory f method a b t0 y0 h = inl e).
Proof.
  intros He.
  assert (Hpos : (0 <? epochs)%Z = true) by now apply Z.ltb_lt.
  assert (Hnz : Qeq_bool (inject_Z epochs) 0 = false).
  { apply Qeq_bool_false. change 0 with (inject_Z 0).
    rewrite inject_Z_injective. lia. }
  unfold analysis.analyse_time, analysis.analyse_memory, py_assert,
    analysis.time_time.
  rewrite Hpos. cbn [bind ret]. split.
  - intros tr Hm. rewrite repeated_calls, Hm. cbn [bind].
    unfold py_div. rewrite Hnz. split; reflexivity.
  - intros e Hm. rewrite repeated_calls, Hm.
    destruct (Z.to_nat epochs) as [|n] eqn:En; [lia|]. split; reflexivity.
Qed.

Lemma harness_follows_solver_witness :
  analysis.analyse_time (fun k => inject_Z (Z.of_nat k)) euler.f1
    euler.euler_explicit 0 1 2 1 (1 # 4) 10 = inl AssertionError /\
  analysis.analyse_memory euler.f1 euler.euler_explicit 0 1 2 1 (1 # 4)
    = inl AssertionError.
Proof.
  refine (proj2 (harness_follows_solver (fun k => inject_Z (Z.of_nat k)) euler.f1
                   euler.euler_explicit 0 1 2 1 (1 # 4) 10 _) AssertionError _).
  - lia.
  - vm_compute. reflexivity.
Defined.

(** * The layout of the comparison tables *)

Lemma set_column_lengths (cols : list (label * list cell)) l v n :
  Forall (fun kc => length (snd kc) = n) cols -> length v = n ->
  Forall (fun kc => length (snd kc) = n) (set_column cols l v).
Proof.
  intros Hc Hv. induction Hc as [|[k c] cols Hk Hc IH]; cbn.
  - repeat constructor. exact Hv.
  - destruct (label_eqb k l); constructor; assumption.
Qed.

Lemma set_column_keys (K : label -> Prop) (cols : list (label * list cell)) l v :
  Forall (fun kc => K (fst kc)) cols -> K l ->
  Forall (fun kc => K (fst kc)) (set_column cols l v).
Proof.
  intros Hc Hl. induction Hc as [|[k c] cols Hk Hc IH]; cbn.
  - repeat constructor. exact Hl.
  - destruct (label_eqb k l); constructor; assumption.
Qed.

Lemma df_setitem_layout (hs : list Q) (df df' : DataFrame) (x : Q) (v : list cell) :
  table_layout hs df -> In x hs ->
  df_setitem df (Ly x) v = inr df' -> table_layout hs df'.
Proof.
  intros (Hok & tcol & rest & Hcols & Hkeys) Hx. unfold df_setitem.
  assert (Hk : exists hi, In hi hs /\ Ly x = Ly hi) by now exists x.
  destruct ((nrows df =? 0)%nat && nonempty v).
  - intros H. injection H as <-. unfold table_layout, frame_ok.
    cbn [nrows columns]. rewrite Hcols. cbn [map fst set_column label_eqb].
    split.
    + constructor; [cbn; apply repeat_length|].
      apply set_column_lengths; [|reflexivity].
      apply Forall_map. apply Forall_forall. intros kc _. cbn.
      apply repeat_length.
    + eexists _, _. split; [reflexivity|].
      apply (set_column_keys (fun l => exists hi, In hi hs /\ l = Ly hi));
        [|exact Hk].
      apply Forall_map. eapply Forall_impl; [|exact Hkeys].
      intros kc Hkc. exact Hkc.
  - destruct (length v =? nrows df)%nat eqn:E; [|discriminate].
    apply Nat.eqb_eq in E. intros H. injection H as <-.
    unfold table_layout, frame_ok in *. cbn [nrows columns].
    rewrite Hcols in *. cbn [set_column label_eqb]. split.
    + inversion Hok as [|? ? Ht Hrest]; subst.
      constructor; [exact Ht|]. now apply set_column_lengths.
    + eexists _, _. split; [reflexivity|].
      now apply (set_column_keys (fun l => exists hi, In hi hs /\ l = Ly hi)).
Qed.

Lemma df_setitem_scalar_layout (hs : list Q) (df : DataFrame) (x : Q) (c : cell) :
  table_layout hs df -> In x hs ->
  table_layout hs (df_setitem_scalar df (Ly x) c).
Proof.
  intros Hl Hx.
  apply (df_setitem_layout hs df _ x (repeat c (nrows df)) Hl Hx).
  unfold df_setitem_scalar. apply df_setitem_fit, repeat_length.
Qed.

Lemma axis_layout (hs : list Q) (v : list cell) :
  table_layout hs (mkDataFrame (length v) [(Lt_axis, v)]).
Proof.
  split; [repeat constructor|].
  eexists _, _. split; [reflexivity | constructor].
Qed.

Lemma for_each_members {A S : Type} (P : S -> Prop) (body : A -> S -> result S)
    (l : list A) (s0 s' : S) :
  P s0 ->
  (forall x s t, In x l -> P s -> body x s = inr t -> P t) ->
  for_each l body s0 = inr s' -> P s'.
Proof.
  revert s0. induction l as [|x l IH]; intros s0 H0 Hstep Hrun; cbn in Hrun.
  - now injection Hrun as <-.
  - destruct (body x s0) as [e|t] eqn:Hb; [discriminate|]. cbn in Hrun.
    apply (IH t); [|intros y s u Hy; apply Hstep; now right | exact Hrun].
    apply (Hstep x s0 t); [now left | exact H0 | exact Hb].
Qed.

(** X12.  A table returned by either variant of [analyse_step_len] is a
    well-formed frame: every column has as many entries as the frame has
    rows, the first column is the time axis, and every other column is
    labelled by one of the step sizes. *)
Theorem returned_tables_are_well_formed f method a b t0 y0 hs :
  (forall df,
     analysis.analyse_step_len f method a b t0 y0 hs = inr df ->
     table_layout (supplied hs) df) /\
  (forall df,
     euler.analyse_step_len f method a b t0 y0 hs = inr df ->
     table_layout (supplied hs) df).
Proof.
  split; intros df.
  - rewrite analyse_step_len_unfold.
    destruct (list_getitem (supplied hs) (-1)) as [e|space]; [discriminate|].
    cbn [bind]. destruct (py_div (b - a) space) as [e|x]; [discriminate|].
    cbn [bind].
    destruct (np_linspace a b (py_round x + 1)) as [e|axis]; [discriminate|].
    cbn [bind]. rewrite df_setitem_fresh. cbn [bind].
    apply for_each_members; [apply axis_layout|].
    intros hi s t Hin Hs. unfold column_step.
    destruct (method f a b t0 y0 hi) as [e|ty]; [discriminate|]. cbn [bind].
    destruct (for_each (enumerate (snd ty)) (analysis.place hi space) _)
      as [e|l]; [discriminate|].
    cbn [bind]. apply df_setitem_layout; [|exact Hin].
    now apply df_setitem_scalar_layout.
  - rewrite euler_analyse_step_len_unfold.
    destruct (list_getitem (supplied hs) 0) as [e|space]; [discriminate|].
    cbn [bind]. destruct (py_div (b - a) space) as [e|x]; [discriminate|].
    cbn [bind].
    destruct (np_linspace a b (py_round x + 1)) as [e|axis]; [discriminate|].
    cbn [bind]. rewrite df_setitem_fresh. cbn [bind].
    apply for_each_members; [apply axis_layout|].
    intros hi s t Hin Hs. unfold euler_column_step.
    destruct (method f a b t0 y0 hi) as [e|ty]; [discriminate|]. cbn [bind].
    destruct (py_div space hi) as [e|r]; [discriminate|]. cbn [bind].
    destruct (py_range0 (length (snd ty)) (py_round r)) as [e|js];
      [discriminate|].
    cbn [bind]. destruct (for_each js _ []) as [e|col]; [discriminate|].
    cbn [bind]. now apply df_setitem_layout.
Qed.

Lemma returned_tables_are_well_formed_witness :
  table_layout (supplied [1 # 2; 1 # 4])
    (mkDataFrame 5
       [(Lt_axis, [Some (0 # 4); Some (1 # 4); Some (2 # 4); Some (3 # 4); Some 1]);
        (Ly (1 # 2), [Some 1; None; Some (3 # 2); None; Some (8 # 4)]);
        (Ly (1 # 4),
         [Some 1; Some (5 # 4); Some (24 # 16); Some (112 # 64); Some (512 # 256)])]).
Proof.
  refine (proj1 (returned_tables_are_well_formed (fun _ _ => 1)
                   euler.euler_explicit 0 1 0 1 [1 # 2; 1 # 4]) _ _).
  vm_compute. reflexivity.
Defined.

(** * The comparison harness of [euler.py] *)

Lemma for_each_fails {A S : Type} (body : A -> S -> result S) (l : list A) (x : A) :
  In x l -> (forall s, exists e, body x s = inl e) ->
  forall s, exists e, for_each l body s = inl e.
Proof.
  intros Hin Hx. induction l as [|y l IH]; intros s; [destruct Hin|].
  cbn. destruct Hin as [->|Hin].
  - destruct (Hx s) as [e He]. rewrite He. now exists e.
  - destruct (body y s) as [e|t]; [now exists e|]. cbn. now apply IH.
Qed.

Lemma py_round_small (x : Q) : 0 <= x -> x < 1 # 2 -> py_round x = 0%Z.
Proof.
  intros H0 H1. destruct (py_round_near x) as [Hlo Hhi].
  pose proof (py_round_nonneg x H0) as Hge.
  destruct (Z_lt_le_dec 0 (py_round x)) as [Hpos|Hle]; [|lia].
  exfalso.
  assert (H : inject_Z 1 <= inject_Z (py_round x)) by (rewrite <- Zle_Qle; lia).
  change (inject_Z 1) with 1 in H. lra.
Qed.

Lemma euler_column_step_zero_stride f method a b t0 y0 space hi df :
  py_round (space / hi) = 0%Z ->
  exists e, euler_column_step f method a b t0 y0 space hi df = inl e.
Proof.
  intros Hk. unfold euler_column_step.
  destruct (method f a b t0 y0 hi) as [e|ty]; [now exists e|]. cbn [bind].
  unfold py_div. destruct (Qeq_bool hi 0); [now eexists|]. cbn [bind ret].
  rewrite Hk. cbn. now eexists.
Qed.

(** X14.  [euler.analyse_step_len] cannot compare a step size with a much
    finer first one: when some step size is more than twice the first step
    size (the reference resolution), its stride [round(space / h_i)] is zero
    and the call fails. *)
Theorem coarse_step_fails f method a b t0 y0 hs hi :
  0 < hd 0 (supplied hs) ->
  In hi (supplied hs) ->
  2 * hd 0 (supplied hs) < hi ->
  exists e, euler.analyse_step_len f method a b t0 y0 hs = inl e.
Proof.
  intros Hpos Hin Hbig. set (space := hd 0 (supplied hs)) in *.
  assert (Hk : py_round (space / hi) = 0%Z).
  { assert (Hhi : 0 < hi) by lra.
    apply py_round_small.
    - apply Qdiv_nonneg; lra.
    - apply Qlt_shift_div_r; lra. }
  rewrite euler_analyse_step_len_unfold.
  rewrite (list_getitem_first _ 0 (supplied_nonempty hs)). cbn [bind].
  fold space.
  destruct (py_div (b - a) space) as [e|x]; [now exists e|]. cbn [bind].
  destruct (np_linspace a b (py_round x + 1)) as [e|axis]; [now exists e|].
  cbn [bind]. rewrite df_setitem_fresh. cbn [bind].
  apply (for_each_fails _ _ hi Hin).
  intros s. now apply euler_column_step_zero_stride.
Qed.

Lemma coarse_step_fails_witness :
  exists e,
    euler.analyse_step_len euler.f1 euler.euler_explicit 0 1 0 1 [1 # 8; 1 # 2]
      = inl e.
Proof.
  apply (coarse_step_fails euler.f1 euler.euler_explicit 0 1 0 1
           [1 # 8; 1 # 2] (1 # 2)).
  - reflexivity.
  - right. left. reflexivity.
  - reflexivity.
Defined.

Lemma multiple_test (k n : nat) :
  (Z.of_nat n mod Z.of_nat k =? 0)%Z = true <-> exists c, n = (k * c)%nat.
Proof.
  rewrite Z.eqb_eq, <- Nat2Z.inj_mod, <- Nat.Div0.mod_divides. lia.
Qed.

(** The indices [range(0, n, k)] runs through: the multiples of [k] below [n]. *)
Lemma filter_multiples (k n : nat) :
  (1 <= k)%nat ->
  exists m,
    filter (fun j => (Z.of_nat j mod Z.of_nat k =? 0)%Z) (seq 0 n) =
      map (fun i => (i * k)%nat) (seq 0 m) /\
    forall i, (i < m)%nat <-> (i * k < n)%nat.
Proof.
  intros Hk. induction n as [|n (m & Hm & Hinv)].
  - exists 0%nat. split; [reflexivity|]. intros i. lia.
  - rewrite seq_S, filter_app, Hm. cbn [filter Nat.add].
    destruct (Z.of_nat n mod Z.of_nat k =? 0)%Z eqn:E.
    + apply multiple_test in E. destruct E as [c Hc].
      assert (Hcm : c = m).
      { destruct (Nat.lt_trichotomy c m) as [Hlt|[Heq|Hgt]]; [|exact Heq|].
        - apply Hinv in Hlt. nia.
        - assert (Hmn : (m * k < n)%nat) by nia. apply Hinv in Hmn. lia. }
      subst c. exists (S m). split.
      * rewrite seq_S, map_app. cbn [map Nat.add]. now rewrite Hc, Nat.mul_comm.
      * intros i. split; intros Hi; nia.
    + exists m. split; [now rewrite app_nil_r|].
      intros i. split; intros Hi.
      * apply Hinv in Hi. lia.
      * apply Hinv. destruct (Nat.eq_dec (i * k) n) as [Heq|Hne]; [|lia].
        assert (Ht : (Z.of_nat n mod Z.of_nat k =? 0)%Z = true)
          by (apply multiple_test; exists i; lia).
        congruence.
Qed.

Lemma list_getitem_nonneg {A : Type} (l : list A) (j : nat) (x : A) :
  list_getitem l (Z.of_nat j) = inr x -> nth_error l j = Some x.
Proof.
  unfold list_getitem.
  destruct (py_index (length l) (Z.of_nat j)) as [e|k] eqn:Hk; [discriminate|].
  apply py_index_nonneg in Hk. destruct Hk as [_ ->]. cbn [bind].
  destruct (nth_error l j); [|discriminate]. intros H. now injection H as <-.
Qed.

Lemma getitem_loop (ys : list Q) (js : list nat) (acc vs : list Q) :
  for_each js
    (fun j col => yj <- list_getitem ys (Z.of_nat j) ;; ret (col ++ [yj])) acc
    = inr vs ->
  exists ws,
    vs = acc ++ ws /\ Forall2 (fun j v => nth_error ys j = Some v) js ws.
Proof.
  revert acc. induction js as [|j js IH]; intros acc H; cbn in H.
  - injection H as <-. exists []. split; [now rewrite app_nil_r | constructor].
  - destruct (list_getitem ys (Z.of_nat j)) as [e|yj] eqn:Hj; [discriminate|].
    cbn in H. apply IH in H. destruct H as (ws & -> & Hws).
    exists (yj :: ws). split; [now rewrite <- app_assoc|].
    constructor; [now apply list_getitem_nonneg | exact Hws].
Qed.

Lemma Forall2_nth_error {A B : Type} (R : A -> B -> Prop) (l1 : list A) (l2 : list B)
    (i : nat) (x : A) :
  Forall2 R l1 l2 -> nth_error l1 i = Some x ->
  exists y, nth_error l2 i = Some y /\ R x y.
Proof.
  intros H. revert i. induction H as [|u v l1 l2 Huv H IH]; intros i Hi.
  - destruct i; discriminate.
  - destruct i as [|i]; cbn in *.
    + injection Hi as <-. now exists v.
    + now apply IH.
Qed.

Lemma decimated (ys ws : list Q) (k m : nat) :
  Forall2 (fun j v => nth_error ys j = Some v)
    (map (fun i => (i * k)%nat) (seq 0 m)) ws ->
  (forall i, (i < m)%nat <-> (i * k < length ys)%nat) ->
  length ws = m /\ forall i, nth_error ws i = nth_error ys (i * k).
Proof.
  intros HF Hinv.
  assert (Hlen : length ws = m).
  { apply Forall2_length in HF. now rewrite length_map, length_seq in HF. }
  split; [exact Hlen|]. intros i.
  destruct (Nat.lt_ge_cases i m) as [Hi|Hi].
  - assert (Hji : nth_error (map (fun i => (i * k)%nat) (seq 0 m)) i = Some (i * k)%nat).
    { rewrite nth_error_map, nth_error_seq.
      apply Nat.ltb_lt in Hi. now rewrite Hi. }
    destruct (Forall2_nth_error _ _ _ _ _ HF Hji) as (v & Hv & Hy). congruence.
  - rewrite (proj2 (nth_error_None ws i)) by lia.
    symmetry. apply nth_error_None.
    destruct (Nat.lt_ge_cases (i * k) (length ys)) as [Hlt|Hge]; [|exact Hge].
    apply Hinv in Hlt. lia.
Qed.

(** A successful round of the loop of [euler.analyse_step_len] on a frame
    with rows. *)
Lemma euler_column_step_inr f method a b t0 y0 space hi df df' :
  (0 < nrows df)%nat ->
  euler_column_step f method a b t0 y0 space hi df = inr df' ->
  exists ts ys k vs,
    method f a b t0 y0 hi = inr (ts, ys) /\
    (1 <= k)%nat /\ Z.of_nat k = py_round (space / hi) /\
    length vs = nrows df /\
    (forall i, nth_error vs i = nth_error ys (i * k)) /\
    df' = mkDataFrame (nrows df) (set_column (columns df) (Ly hi) (map Some vs)).
Proof.
  intros Hpos. unfold euler_column_step.
  destruct (method f a b t0 y0 hi) as [e|[ts ys]]; [discriminate|].
  cbn [bind snd]. unfold py_div.
  destruct (Qeq_bool hi 0); [discriminate|]. cbn [bind ret].
  unfold py_range0.
  destruct (py_round (space / hi) =? 0)%Z eqn:E0; [discriminate|].
  apply Z.eqb_neq in E0.
  destruct (py_round (space / hi) <? 0)%Z eqn:E1.
  - cbn [bind ret for_each map]. unfold df_setitem.
    destruct (nrows df) as [|n]; [lia|]. cbn. discriminate.
  - apply Z.ltb_ge in E1. cbn [bind ret].
    set (k := Z.to_nat (py_round (space / hi))).
    assert (Hk : Z.of_nat k = py_round (space / hi)) by (unfold k; lia).
    assert (Hk1 : (1 <= k)%nat) by lia.
    rewrite <- Hk.
    destruct (filter_multiples k (length ys) Hk1) as (m & Hjs & Hinv).
    rewrite Hjs.
    destruct (for_each _ _ []) as [e|vs] eqn:Hloop; [discriminate|].
    cbn [bind]. intros Hset.
    apply getitem_loop in Hloop. destruct Hloop as (ws & -> & HF).
    cbn [app] in *.
    destruct (decimated ys ws k m HF Hinv) as [Hlen Hnth].
    pose proof (df_setitem_rows _ _ _ _ Hpos Hset) as Hdf.
    assert (Hfit : length ws = nrows df).
    { unfold df_setitem in Hset. destruct (nrows df) as [|n]; [lia|].
      cbn [Nat.eqb andb] in Hset. rewrite length_map in Hset.
      destruct (length ws =? S n)%nat eqn:E; [|discriminate].
      now apply Nat.eqb_eq. }
    exists ts, ys, k, ws. repeat split; assumption.
Qed.

Lemma euler_column_step_table_state f method a b t0 y0 space N done x df df' :
  (0 < N)%nat ->
  euler_table_state f method a b t0 y0 space N done df ->
  euler_column_step f method a b t0 y0 space x df = inr df' ->
  euler_table_state f method a b t0 y0 space N (done ++ [x]) df'.
Proof.
  intros HN (Hrows & Hcols) Hstep.
  assert (Hpos : (0 < nrows df)%nat) by lia.
  destruct (euler_column_step_inr _ _ _ _ _ _ _ _ _ _ Hpos Hstep)
    as (ts & ys & k & vs & Hm & Hk1 & Hk & Hlen & Hnth & ->).
  unfold euler_table_state. cbn [nrows columns]. split; [exact Hrows|].
  intros hi Hin. rewrite get_set_column. cbn [label_eqb].
  destruct (Qeq_bool x hi) eqn:E.
  - apply Qeq_bool_iff in E. exists (map Some vs), x, ts, ys, k.
    repeat split; try assumption.
    + apply in_or_app. right. now left.
    + rewrite length_map. lia.
    + intros i. now rewrite nth_error_map, Hnth.
  - apply in_app_or in Hin. destruct Hin as [Hin|[<-|[]]].
    + destruct (Hcols hi Hin)
        as (c & hj & ts' & ys' & k' & Hg & Hj & Hjq & Hmj & Hk1' & Hk' & Hl' & Hn').
      exists c, hj, ts', ys', k'. repeat split; try assumption.
      apply in_or_app. now left.
    + rewrite (proj2 (Qeq_bool_iff x x) (Qeq_refl x)) in E. discriminate.
Qed.

(** X15.  On an interval [a <= b] with a positive first step size,
    [euler.analyse_step_len] aligns by decimation: in a returned table the
    column of a step size [h_i] has no missing entry, and its row [i] holds
    sample [i * k] of one solver run with that step size, where
    [k = round(space / h_i) >= 1] and [space] is the first step size; the
    table has [round((b - a)/space) + 1] rows. *)
Theorem euler_columns_are_decimated f method a b t0 y0 hs df hi :
  a <= b -> 0 < hd 0 (supplied hs) ->
  euler.analyse_step_len f method a b t0 y0 hs = inr df ->
  In hi (supplied hs) ->
  Z.of_nat (nrows df) = (py_round ((b - a) / hd 0 (supplied hs))%Q + 1)%Z /\
  exists col hj ts ys k,
    get_column (columns df) (Ly hi) = Some col /\
    In hj (supplied hs) /\ hj == hi /\
    method f a b t0 y0 hj = inr (ts, ys) /\
    (1 <= k)%nat /\ Z.of_nat k = py_round (hd 0 (supplied hs) / hj) /\
    length col = nrows df /\
    (forall i, nth_error col i = option_map Some (nth_error ys (i * k))) /\
    ~ In None col.
Proof.
  intros Hab Hpos Hrun Hin. set (space := hd 0 (supplied hs)) in *.
  rewrite euler_analyse_step_len_unfold in Hrun.
  rewrite (list_getitem_first _ 0 (supplied_nonempty hs)) in Hrun.
  cbn [bind] in Hrun. fold space in Hrun. unfold py_div in Hrun.
  rewrite (Qeq_bool_false space 0) in Hrun by lra. cbn [bind ret] in Hrun.
  set (num := (py_round ((b - a) / space) + 1)%Z) in *.
  assert (Hnum : (1 <= num)%Z).
  { unfold num. assert (0 <= py_round ((b - a) / space))%Z; [|lia].
    apply py_round_nonneg, Qdiv_nonneg; lra. }
  destruct (np_linspace_defined a b num ltac:(lia)) as [axis Hax].
  rewrite Hax in Hrun. cbn [bind] in Hrun.
  rewrite df_setitem_fresh in Hrun. cbn [bind] in Hrun.
  destruct (np_linspace_length _ _ _ _ Hax) as [_ Hlen].
  apply (for_each_invariant
           (euler_table_state f method a b t0 y0 space (Z.to_nat num))
           _ _ _ _) in Hrun.
  - destruct Hrun as [Hrows Hcols]. split; [lia|].
    destruct (Hcols hi Hin)
      as (col & hj & ts & ys & k & Hg & Hj & Hjq & Hm & Hk1 & Hk & Hl & Hn).
    exists col, hj, ts, ys, k. repeat split; try assumption; [lia|].
    intros Hnone. apply In_nth_error in Hnone. destruct Hnone as [i Hi].
    rewrite Hn in Hi. destruct (nth_error ys (i * k)); discriminate.
  - split; [cbn; now rewrite length_map|]. intros x [].
  - intros done x s t Hs Hb.
    assert (HN : (0 < Z.to_nat num)%nat) by lia.
    apply (euler_column_step_table_state _ _ _ _ _ _ _ _ _ _ _ _ HN Hs Hb).
Qed.

Lemma euler_columns_are_decimated_witness :
  Z.of_nat 3 = (py_round ((1 - 0) / hd 0 (supplied [1 # 2; 1 # 4]))%Q + 1)%Z /\
  exists col hj ts ys k,
    get_column
      [(Lt_axis, [Some (0 # 2); Some (1 # 2); Some 1]);
       (Ly (1 # 2), [Some 1; Some (3 # 2); Some (8 # 4)]);
       (Ly (1 # 4), [Some 1; Some (24 # 16); Some (512 # 256)])]
      (Ly (1 # 4)) = Some col /\
    In hj (supplied [1 # 2; 1 # 4]) /\ hj == 1 # 4 /\
    euler.euler_explicit (fun _ _ => 1) 0 1 0 1 hj = inr (ts, ys) /\
    (1 <= k)%nat /\
    Z.of_nat k = py_round (hd 0 (supplied [1 # 2; 1 # 4]) / hj) /\
    length col = 3%nat /\
    (forall i, nth_error col i = option_map Some (nth_error ys (i * k))) /\
    ~ In None col.
Proof.
  refine (euler_columns_are_decimated (fun _ _ => 1) euler.euler_explicit
            0 1 0 1 [1 # 2; 1 # 4]
            (mkDataFrame 3
               [(Lt_axis, [Some (0 # 2); Some (1 # 2); Some 1]);
                (Ly (1 # 2), [Some 1; Some (3 # 2); Some (8 # 4)]);
                (Ly (1 # 4), [Some 1; Some (24 # 16); Some (512 # 256)])])
            (1 # 4) _ _ _ _).
  - discriminate.
  - reflexivity.
  - vm_compute. reflexivity.
  - right. left. reflexivity.
Defined.

(** * The two harness variants on a single step size *)





(** * Commensurate grids are always accepted *)





(** * The solvers in binary64 arithmetic *)

Section Loops_b64.
Variable h : float.
Variable rule : float -> float -> float.
Variable body : euler_b64.walk -> euler_b64.walk.

Import euler_b64.
Local Open Scope float_scope.

Lemma repeat_body_backward_b64 :
  (forall s, body s =
     Walk (ti s - h) (rule (ti s) (yi s))
          (t_acc s ++ [ti s - h]) (y_acc s ++ [rule (ti s) (yi s)])) ->
  forall n t y ts ys,
    let st := backward_steps rule h n t y in
    t_acc (repeat_body n body (Walk t y ts ys)) = ts ++ map fst st /\
    y_acc (repeat_body n body (Walk t y ts ys)) = ys ++ map snd st.
Proof.
  intros Hbody n. induction n as [|n IH]; intros t y ts ys; simpl.
  - now rewrite !app_nil_r.
  - rewrite Hbody; simpl.
    destruct (IH (t - h) (rule t y) (ts ++ [t - h]) (ys ++ [rule t y])) as [Ht Hy].
    rewrite Ht, Hy, <- !app_assoc. now split.
Qed.

Lemma repeat_body_forward_b64 :
  (forall s, body s =
     Walk (ti s + h) (rule (ti s) (yi s))
          (t_acc s ++ [ti s + h]) (y_acc s ++ [rule (ti s) (yi s)])) ->
  forall n t y ts ys,
    let st := forward_steps rule h n t y in
    t_acc (repeat_body n body (Walk t y ts ys)) = ts ++ map fst st /\
    y_acc (repeat_body n body (Walk t y ts ys)) = ys ++ map snd st.
Proof.
  intros Hbody n. induction n as [|n IH]; intros t y ts ys; simpl.
  - now rewrite !app_nil_r.
  - rewrite Hbody; simpl.
    destruct (IH (t + h) (rule t y) (ts ++ [t + h]) (ys ++ [rule t y])) as [Ht Hy].
    rewrite Ht, Hy, <- !app_assoc. now split.
Qed.
End Loops_b64.

Lemma splice_buffer_b64 (st : list (float * float)) (t0 y0 : float) :
  euler_b64.splice (map fst st) (map snd st) t0 y0 =
  (map fst (rev st ++ [(t0, y0)]), map snd (rev st ++ [(t0, y0)])).
Proof.
  unfold euler_b64.splice. destruct st as [|p st]; [reflexivity|].
  cbn [map nonempty andb app].
  now rewrite !map_app, !map_rev.
Qed.

Lemma solver_shape_b64 (back_rule fwd_rule : float -> float -> float)
    (back_body fwd_body : euler_b64.walk -> euler_b64.walk) (a b t0 y0 h : float) :
  (forall s, back_body s =
     euler_b64.Walk (euler_b64.ti s - h) (back_rule (euler_b64.ti s) (euler_b64.yi s))
       (euler_b64.t_acc s ++ [(euler_b64.ti s - h)%float])
       (euler_b64.y_acc s ++ [back_rule (euler_b64.ti s) (euler_b64.yi s)])) ->
  (forall s, fwd_body s =
     euler_b64.Walk (euler_b64.ti s + h) (fwd_rule (euler_b64.ti s) (euler_b64.yi s))
       (euler_b64.t_acc s ++ [(euler_b64.ti s + h)%float])
       (euler_b64.y_acc s ++ [fwd_rule (euler_b64.ti s) (euler_b64.yi s)])) ->
  (_ <- py_assert ((a <=? t0)%float && (t0 <=? b)%float) ;;
   x <- euler_b64.py_div (t0 - a) h ;;
   n <- euler_b64.py_round x ;;
   let back := for_range n back_body (euler_b64.Walk t0 y0 [] []) in
   let '(t_list, y_list) :=
     euler_b64.splice (euler_b64.t_acc back) (euler_b64.y_acc back) t0 y0 in
   x <- euler_b64.py_div (b - t0) h ;;
   n <- euler_b64.py_round x ;;
   let fwd := for_range n fwd_body (euler_b64.Walk t0 y0 t_list y_list) in
   ret (euler_b64.t_acc fwd, euler_b64.y_acc fwd))
  = euler_b64.driver back_rule fwd_rule a b t0 y0 h.
Proof.
  intros Hb Hf. unfold euler_b64.driver, euler_b64.backward_count,
    euler_b64.forward_count, py_assert.
  destruct ((a <=? t0)%float && (t0 <=? b)%float); [|reflexivity].
  cbn [bind ret].
  destruct (euler_b64.py_div (t0 - a) h) as [e|x]; [reflexivity|].
  cbn [bind].
  destruct (euler_b64.py_round x) as [e|nb]; [reflexivity|].
  cbn [bind]. unfold for_range.
  destruct (@repeat_body_backward_b64 h back_rule back_body Hb
              (Z.to_nat nb) t0 y0 [] []) as [Ht Hy].
  cbn [app] in Ht, Hy. rewrite Ht, Hy, splice_buffer_b64.
  destruct (euler_b64.py_div (b - t0) h) as [e|x']; [reflexivity|].
  cbn [bind].
  destruct (euler_b64.py_round x') as [e|nf]; [reflexivity|].
  cbn [bind].
  destruct (@repeat_body_forward_b64 h fwd_rule fwd_body Hf
              (Z.to_nat nf) t0 y0
              (map fst (rev (euler_b64.backward_steps back_rule h
                 (Z.to_nat nb) t0 y0) ++ [(t0, y0)]))
              (map snd (rev (euler_b64.backward_steps back_rule h
                 (Z.to_nat nb) t0 y0) ++ [(t0, y0)])))
    as [Ht' Hy'].
  rewrite Ht', Hy'. unfold euler_b64.protocol, euler_b64.samples.
  now rewrite !map_app, <- !app_assoc.
Qed.

Lemma euler_explicit_driver_b64 f a b t0 y0 h :
  euler_b64.euler_explicit f a b t0 y0 h =
  euler_b64.driver (euler_b64.explicit_back f h) (euler_b64.explicit_fwd f h)
    a b t0 y0 h.
Proof. unfold euler_b64.euler_explicit. now apply solver_shape_b64. Qed.

Lemma euler_improved_driver_b64 f a b t0 y0 h :
  euler_b64.euler_improved f a b t0 y0 h =
  euler_b64.driver (euler_b64.improved_back f h) (euler_b64.improved_fwd f h)
    a b t0 y0 h.
Proof. unfold euler_b64.euler_improved. now apply solver_shape_b64. Qed.

Lemma euler_implicit_driver_b64 f a b t0 y0 h threshold epochs :
  euler_b64.euler_implicit f a b t0 y0 h threshold epochs =
  euler_b64.driver (euler_b64.implicit_back f h threshold epochs)
    (euler_b64.implicit_fwd f h threshold epochs) a b t0 y0 h.
Proof.
  unfold euler_b64.euler_implicit. apply solver_shape_b64; intros s;
    unfold euler_b64.implicit_back, euler_b64.implicit_fwd, euler_b64.accepted,
      euler_b64.implicit_back_loop, euler_b64.implicit_fwd_loop; cbv zeta;
    destruct (euler_b64.fixed_point_iteration _ _ _ _ _) as [[y_ y__] epoch];
    reflexivity.
Qed.

Lemma euler_trapezium_driver_b64 f a b t0 y0 h threshold epochs :
  euler_b64.euler_trapezium f a b t0 y0 h threshold epochs =
  euler_b64.driver (euler_b64.trapezium_back f h threshold epochs)
    (euler_b64.trapezium_fwd f h threshold epochs) a b t0 y0 h.
Proof.
  unfold euler_b64.euler_trapezium. apply solver_shape_b64; intros s;
    unfold euler_b64.trapezium_back, euler_b64.trapezium_fwd, euler_b64.accepted,
      euler_b64.trapezium_back_loop, euler_b64.trapezium_fwd_loop; cbv zeta;
    destruct (euler_b64.fixed_point_iteration _ _ _ _ _) as [[y_ y__] epoch];
    reflexivity.
Qed.

(** * Facts about binary64 numbers *)

Lemma Prim2SF_zero : Prim2SF 0%float = S754_zero false.
Proof. reflexivity. Qed.

Lemma SFcompare_refl (x : spec_float) :
  x <> S754_nan -> SFcompare x x = Some Eq.
Proof.
  destruct x as [s|s| |s m e]; try (now destruct s); [congruence|].
  intros _. cbn. rewrite Z.compare_refl, Pos.compare_cont_refl.
  now destruct s.
Qed.

Lemma float_leb_not_nan (x y : float) :
  (x <=? y)%float = true -> Prim2SF x <> S754_nan /\ Prim2SF y <> S754_nan.
Proof.
  rewrite leb_spec. unfold SFleb.
  destruct (Prim2SF x), (Prim2SF y); cbn; try discriminate; split; discriminate.
Qed.

Lemma float_leb_refl (x : float) : Prim2SF x <> S754_nan -> (x <=? x)%float = true.
Proof.
  intros H. rewrite leb_spec. unfold SFleb. now rewrite SFcompare_refl.
Qed.

Lemma ltb_zero_nonzero (h : float) : (0 <? h)%float = true -> (h =? 0)%float = false.
Proof.
  rewrite ltb_spec, eqb_spec, Prim2SF_zero. unfold SFltb, SFeqb.
  destruct (Prim2SF h) as [s|s| |s m e]; cbn; try discriminate;
    destruct s; cbn; congruence.
Qed.

Lemma binary_round_aux_nonneg (m e : Z) (l : location) :
  euler_b64.sf_nonneg (binary_round_aux prec emax false m e l) = true.
Proof.
  unfold binary_round_aux.
  destruct (shr_fexp prec emax m e l) as [mrs' e'].
  destruct (shr_fexp prec emax _ e' loc_Exact) as [mrs'' e''].
  destruct (shr_m mrs''); [reflexivity| |reflexivity].
  now destruct (e'' <=? emax - prec)%Z.
Qed.

Lemma binary_normalize_nonneg (m e : Z) :
  (0 <= m)%Z -> euler_b64.sf_nonneg (binary_normalize prec emax m e false) = true.
Proof.
  intros Hm. destruct m as [|p|p]; [reflexivity| |lia].
  unfold binary_normalize, binary_round.
  destruct (shl_align _ _ _) as [mz ez]. apply binary_round_aux_nonneg.
Qed.

Lemma iter_xO (m d : positive) :
  Zpos (Pos.iter xO m d) = (Zpos m * 2 ^ Zpos d)%Z.
Proof.
  induction d as [|d IH] using Pos.peano_ind.
  - cbn [Pos.iter]. change (Zpos m~0) with (2 * Zpos m)%Z.
    change (2 ^ 1)%Z with 2%Z. lia.
  - rewrite Pos.iter_succ.
    change (Zpos (Pos.iter xO m d)~0) with (2 * Zpos (Pos.iter xO m d))%Z.
    rewrite IH, Pos2Z.inj_succ, Z.pow_succ_r by lia. lia.
Qed.

Lemma shl_align_value (m : positive) (e e' : Z) :
  (e' <= e)%Z ->
  Zpos (fst (shl_align m e e')) = (Zpos m * 2 ^ (e - e'))%Z.
Proof.
  intros He. unfold shl_align.
  destruct (e' - e)%Z as [|d|d] eqn:Hd.
  - replace (e - e')%Z with 0%Z by lia. cbn [fst]. change (2 ^ 0)%Z with 1%Z. lia.
  - lia.
  - cbn [fst]. rewrite iter_xO. f_equal. f_equal. lia.
Qed.

Lemma digits2_pos_bounds (m : positive) :
  (2 ^ (Zpos (digits2_pos m) - 1) <= Zpos m < 2 ^ Zpos (digits2_pos m))%Z.
Proof.
  induction m as [m IH|m IH|]; cbn [digits2_pos].
  - rewrite Pos2Z.inj_succ. change (Zpos m~1) with (2 * Zpos m + 1)%Z.
    replace (Z.succ (Zpos (digits2_pos m)) - 1)%Z
      with (Z.succ (Zpos (digits2_pos m) - 1))%Z by lia.
    rewrite !Z.pow_succ_r by lia.
    generalize dependent (2 ^ (Zpos (digits2_pos m) - 1))%Z.
    generalize (2 ^ Zpos (digits2_pos m))%Z. intros; lia.
  - rewrite Pos2Z.inj_succ. change (Zpos m~0) with (2 * Zpos m)%Z.
    replace (Z.succ (Zpos (digits2_pos m)) - 1)%Z
      with (Z.succ (Zpos (digits2_pos m) - 1))%Z by lia.
    rewrite !Z.pow_succ_r by lia.
    generalize dependent (2 ^ (Zpos (digits2_pos m) - 1))%Z.
    generalize (2 ^ Zpos (digits2_pos m))%Z. intros; lia.
  - cbn. lia.
Qed.

(** What validity says of a finite binary64 number [m * 2^e]: the exponent is
    at least [-1074], the mantissa has at most 53 bits, and exactly 53 above
    the smallest exponent. *)
Lemma bounded_mantissa (m : positive) (e : Z) :
  bounded prec emax m e = true ->
  (-1074 <= e)%Z /\ (Zpos m < 2 ^ 53)%Z /\
  ((-1074 < e)%Z -> (2 ^ 52 <= Zpos m)%Z).
Proof.
  unfold bounded, canonical_mantissa, fexp, SpecFloat.emin, prec, emax.
  intros H. apply andb_true_iff in H. destruct H as [H _].
  apply Z.eqb_eq in H.
  pose proof (digits2_pos_bounds m) as [Hlo Hhi].
  assert (Hd : (Zpos (digits2_pos m) <= 53)%Z) by lia.
  repeat split.
  - lia.
  - eapply Z.lt_le_trans; [exact Hhi|]. apply Z.pow_le_mono_r; lia.
  - intros He. assert (Hd' : Zpos (digits2_pos m) = 53%Z) by lia.
    rewrite Hd' in Hlo. exact Hlo.
Qed.

Lemma finite_order (m1 m2 : positive) (e1 e2 : Z) :
  bounded prec emax m1 e1 = true -> bounded prec emax m2 e2 = true ->
  (e1 < e2)%Z ->
  (Zpos m1 * 2 ^ (e1 - Z.min e2 e1) <= Zpos m2 * 2 ^ (e2 - Z.min e2 e1))%Z.
Proof.
  intros H1 H2 He.
  destruct (bounded_mantissa m1 e1 H1) as (Hlo1 & Hhi1 & _).
  destruct (bounded_mantissa m2 e2 H2) as (_ & _ & Hn2).
  specialize (Hn2 ltac:(lia)).
  replace (Z.min e2 e1) with e1 by lia.
  replace (e1 - e1)%Z with 0%Z by lia. change (2 ^ 0)%Z with 1%Z.
  assert (Hp : (2 ^ 1 <= 2 ^ (e2 - e1))%Z) by (apply Z.pow_le_mono_r; lia).
  change (2 ^ 1)%Z with 2%Z in Hp.
  change (2 ^ 53)%Z with (2 ^ 52 * 2)%Z in Hhi1.
  nia.
Qed.

Lemma compare_cont_le (m1 m2 : positive) :
  Pos.compare_cont Eq m1 m2 <> Gt -> (Zpos m1 <= Zpos m2)%Z.
Proof.
  change (Pos.compare_cont Eq m1 m2) with (Pos.compare m1 m2).
  intros H. apply Pos2Z.pos_le_pos. exact H.
Qed.

Lemma compare_cont_ge (m1 m2 : positive) :
  Pos.compare_cont Eq m1 m2 <> Lt -> (Zpos m2 <= Zpos m1)%Z.
Proof.
  change (Pos.compare_cont Eq m1 m2) with (Pos.compare m1 m2).
  intros H. apply Pos2Z.pos_le_pos. apply Pos.le_nlt. intros Hlt.
  apply H. exact Hlt.
Qed.

Lemma finite_difference_nonneg (sx sy : bool) (mx my : positive) (ex ey : Z) :
  bounded prec emax mx ex = true -> bounded prec emax my ey = true ->
  SFleb (S754_finite sy my ey) (S754_finite sx mx ex) = true ->
  (0 <= cond_Zopp sx (Zpos (fst (shl_align mx ex (Z.min ex ey)))) -
        cond_Zopp sy (Zpos (fst (shl_align my ey (Z.min ex ey)))))%Z.
Proof.
  intros Vx Vy. rewrite !shl_align_value by lia.
  assert (Hpx : (0 < 2 ^ (ex - Z.min ex ey))%Z) by (apply Z.pow_pos_nonneg; lia).
  assert (Hpy : (0 < 2 ^ (ey - Z.min ex ey))%Z) by (apply Z.pow_pos_nonneg; lia).
  unfold SFleb. cbn [SFcompare].
  destruct sx, sy; cbn [cond_Zopp]; try discriminate.
  - destruct (Z.compare ey ex) eqn:Hc; try discriminate.
    + apply Z.compare_eq in Hc. subst ey. intros Hle.
      assert (Zpos mx <= Zpos my)%Z.
      { apply compare_cont_ge. intros E. rewrite E in Hle. discriminate. }
      nia.
    + intros _. apply Z.compare_gt_iff in Hc.
      pose proof (finite_order mx my ex ey Vx Vy Hc) as Ho.
      rewrite Z.min_comm in Ho. lia.
  - intros _. nia.
  - destruct (Z.compare ey ex) eqn:Hc; try discriminate.
    + apply Z.compare_eq in Hc. subst ey. intros Hle.
      assert (Zpos my <= Zpos mx)%Z.
      { apply compare_cont_le. intros E. rewrite E in Hle. discriminate. }
      nia.
    + intros _. apply Z.compare_lt_iff in Hc.
      pose proof (finite_order my mx ey ex Vy Vx Hc) as Ho. lia.
Qed.

(** The difference of two floats has the sign of the exact difference. *)
Lemma SFsub_nonneg (x y : spec_float) :
  valid_binary x = true -> valid_binary y = true ->
  SFleb y x = true -> euler_b64.sf_nonneg (SF64sub x y) = true.
Proof.
  intros Vx Vy Hle.
  destruct x as [sx|sx| |sx mx ex], y as [sy|sy| |sy my ey];
    try (destruct sx; destruct sy; cbn in Hle |- *; congruence);
    try (destruct sx; cbn in Hle |- *; congruence);
    try (destruct sy; cbn in Hle |- *; congruence);
    try (cbn in Hle |- *; congruence).
  unfold SF64sub, SFsub. apply binary_normalize_nonneg.
  now apply finite_difference_nonneg.
Qed.

Lemma SFdiv_nonneg (x h : spec_float) :
  euler_b64.sf_nonneg x = true -> SFltb (S754_zero false) h = true ->
  euler_b64.sf_nonneg (SF64div x h) = true.
Proof.
  intros Hx Hh.
  destruct h as [sh|sh| |sh mh eh]; try discriminate;
    destruct sh; try discriminate;
    destruct x as [sx|sx| |sx mx ex]; try reflexivity;
    destruct sx; try discriminate; try reflexivity.
  unfold SF64div, SFdiv.
  destruct (SFdiv_core_binary _ _ _ _ _ _) as [[mz ez] lz].
  apply binary_round_aux_nonneg.
Qed.

Lemma exact_value_nonneg (m : positive) (e : Z) :
  (0 <= euler_b64.exact_value false m e)%Q.
Proof.
  unfold euler_b64.exact_value. cbn [cond_Zopp].
  apply Qmult_le_0_compat; [discriminate|].
  apply Qpower_0_le. discriminate.
Qed.

Lemma py_round_nonneg_b64 (x : float) (n : Z) :
  euler_b64.sf_nonneg (Prim2SF x) = true ->
  euler_b64.py_round x = inr n -> (0 <= n)%Z.
Proof.
  unfold euler_b64.py_round, euler_b64.round_exact.
  destruct (Prim2SF x) as [s|s| |s m e]; cbn; try discriminate.
  - intros _ H. injection H as <-. lia.
  - intros Hs H. injection H as <-. destruct s; [discriminate|].
    apply py_round_nonneg, exact_value_nonneg.
Qed.

(** With [low <= high] and [h > 0] the count [round((high - low)/h)] is not
    negative. *)
Lemma count_nonneg (low high h : float) (n : Z) :
  (low <=? high)%float = true -> (0 <? h)%float = true ->
  euler_b64.py_round ((high - low) / h) = inr n -> (0 <= n)%Z.
Proof.
  intros Hle Hh. apply py_round_nonneg_b64.
  rewrite div_spec. apply SFdiv_nonneg.
  - rewrite sub_spec. apply SFsub_nonneg; try apply Prim2SF_valid.
    now rewrite <- leb_spec.
  - now rewrite <- Prim2SF_zero, <- ltb_spec.
Qed.

Lemma py_round_finite (x : float) :
  euler_b64.finite x = true <-> exists n, euler_b64.py_round x = inr n.
Proof.
  unfold euler_b64.finite, euler_b64.py_round.
  destruct (Prim2SF x); cbn; split; try discriminate; eauto;
    intros [n H]; discriminate.
Qed.

Lemma py_round_error (x : float) (e : exn) :
  euler_b64.py_round x = inl e ->
  euler_b64.finite x = false /\ (e = OverflowError \/ e = ValueError).
Proof.
  unfold euler_b64.finite, euler_b64.py_round.
  destruct (Prim2SF x); cbn; try discriminate; intros H; injection H as <-; auto.
Qed.

(** * Products that do not overflow *)












(** * The fixed-point loop on floats *)


Lemma fixed_point_iteration_run_b64 (g : float -> float) (threshold : float)
    (epochs epoch : Z) (y_ : float) :
  exists n : nat,
    euler_b64.fixed_point_iteration g threshold epochs epoch y_ =
      (euler_b64.iterate g n y_, euler_b64.iterate g (S n) y_,
       (epoch + Z.of_nat (S n))%Z) /\
    euler_b64.stop_test threshold epochs (epoch + Z.of_nat (S n))
      (euler_b64.iterate g (S n) y_) (euler_b64.iterate g n y_) = true /\
    (forall k : nat, (k < n)%nat ->
       euler_b64.stop_test threshold epochs (epoch + Z.of_nat (S k))
         (euler_b64.iterate g (S k) y_) (euler_b64.iterate g k y_) = false).
Proof.
  funelim (euler_b64.fixed_point_iteration g threshold epochs epoch y_).
  - exists 0%nat. cbn [euler_b64.iterate].
    replace (epoch + Z.of_nat 1)%Z with (epoch + 1)%Z by lia.
    repeat split; [assumption|]. intros k Hk. lia.
  - destruct H as (n & Hrun & Hstop & Hbefore).
    exists (S n). cbn [euler_b64.iterate].
    replace (epoch + Z.of_nat (S (S n)))%Z
      with (epoch + 1 + Z.of_nat (S n))%Z by lia.
    repeat split; [assumption|assumption|].
    intros [|k] Hk.
    + cbn [euler_b64.iterate].
      replace (epoch + Z.of_nat 1)%Z with (epoch + 1)%Z by lia. assumption.
    + replace (epoch + Z.of_nat (S (S k)))%Z
        with (epoch + 1 + Z.of_nat (S k))%Z by lia.
      apply (Hbefore k). lia.
Qed.

Lemma iterations_bound_b64 (g : float -> float) (threshold : float)
    (epochs : Z) (seed : float) :
  (0 <= epochs)%Z ->
  (1 <= euler_b64.iterations
          (euler_b64.fixed_point_iteration g threshold epochs 0 seed)
     <= epochs + 1)%Z.
Proof.
  intros He.
  destruct (fixed_point_iteration_run_b64 g threshold epochs 0 seed)
    as (n & Hrun & _ & Hbefore).
  rewrite Hrun. unfold euler_b64.iterations. cbn [snd].
  destruct n as [|n]; [lia|].
  specialize (Hbefore n ltac:(lia)). unfold euler_b64.stop_test in Hbefore.
  apply orb_false_iff in Hbefore. destruct Hbefore as [_ Hb].
  apply Z.ltb_ge in Hb. lia.
Qed.


(** * The protocol on floats *)

Lemma driver_outcome (back fwd : float -> float -> float) (a b t0 y0 h : float) :
  euler_b64.driver back fwd a b t0 y0 h =
  if negb ((a <=? t0)%float && (t0 <=? b)%float) then inl AssertionError
  else if (h =? 0)%float then inl ZeroDivisionError
  else match euler_b64.py_round ((t0 - a) / h) with
       | inl e => inl e
       | inr nb =>
           match euler_b64.py_round ((b - t0) / h) with
           | inl e => inl e
           | inr nf =>
               inr (euler_b64.protocol back fwd (Z.to_nat nb) (Z.to_nat nf) t0 y0 h)
           end
       end.
Proof.
  unfold euler_b64.driver, euler_b64.backward_count, euler_b64.forward_count,
    euler_b64.py_div, py_assert.
  destruct ((a <=? t0)%float && (t0 <=? b)%float); [|reflexivity].
  cbn [negb bind ret].
  destruct (h =? 0)%float; [reflexivity|]. cbn [bind ret].
  destruct (euler_b64.py_round ((t0 - a) / h)); [reflexivity|]. cbn [bind].
  now destruct (euler_b64.py_round ((b - t0) / h)).
Qed.

Lemma driver_inr (back fwd : float -> float -> float) (a b t0 y0 h : float)
    (ts ys : list float) :
  euler_b64.driver back fwd a b t0 y0 h = inr (ts, ys) ->
  (a <=? t0)%float = true /\ (t0 <=? b)%float = true /\ (h =? 0)%float = false /\
  exists nb nf,
    euler_b64.py_round ((t0 - a) / h) = inr nb /\
    euler_b64.py_round ((b - t0) / h) = inr nf /\
    (ts, ys) = euler_b64.protocol back fwd (Z.to_nat nb) (Z.to_nat nf) t0 y0 h.
Proof.
  rewrite driver_outcome.
  destruct (a <=? t0)%float; [|discriminate].
  destruct (t0 <=? b)%float; [|discriminate]. cbn [andb negb].
  destruct (h =? 0)%float; [discriminate|].
  destruct (euler_b64.py_round ((t0 - a) / h)) as [e|nb]; [discriminate|].
  destruct (euler_b64.py_round ((b - t0) / h)) as [e|nf]; [discriminate|].
  intros H. repeat split. exists nb, nf. repeat split. congruence.
Qed.

Lemma backward_steps_length_b64 rule h n t y :
  length (euler_b64.backward_steps rule h n t y) = n.
Proof.
  revert t y. induction n as [|n IH]; intros t y; cbn; [reflexivity|].
  now rewrite IH.
Qed.

Lemma forward_steps_length_b64 rule h n t y :
  length (euler_b64.forward_steps rule h n t y) = n.
Proof.
  revert t y. induction n as [|n IH]; intros t y; cbn; [reflexivity|].
  now rewrite IH.
Qed.


Lemma samples_initial_b64 back fwd nb nf t0 y0 h :
  nth_error (euler_b64.samples back fwd nb nf t0 y0 h) nb = Some (t0, y0).
Proof.
  unfold euler_b64.samples.
  rewrite nth_error_app2 by (rewrite length_rev, backward_steps_length_b64; lia).
  rewrite length_rev, backward_steps_length_b64, Nat.sub_diag. reflexivity.
Qed.

Lemma samples_skipn_b64 back fwd nb nf t0 y0 h :
  skipn nb (euler_b64.samples back fwd nb nf t0 y0 h) =
  euler_b64.samples back fwd 0 nf t0 y0 h.
Proof.
  unfold euler_b64.samples.
  rewrite skipn_app, length_rev, backward_steps_length_b64, Nat.sub_diag.
  rewrite skipn_all2 by (rewrite length_rev, backward_steps_length_b64; lia).
  reflexivity.
Qed.




(** * Zero differences and zero quotients *)

Lemma SFsub_diag (x : spec_float) :
  match x with S754_nan | S754_infinity _ => False | _ => True end ->
  euler_b64.is_zero (SF64sub x x) = true.
Proof.
  destruct x as [s|s| |s m e]; try contradiction; intros _.
  - now destruct s.
  - unfold SF64sub, SFsub. now rewrite Z.sub_diag.
Qed.

Lemma SFdiv_zero (x h : spec_float) :
  euler_b64.is_zero x = true -> h <> S754_nan -> euler_b64.is_zero h = false ->
  euler_b64.is_zero (SF64div x h) = true.
Proof.
  destruct x as [sx|sx| |sx mx ex]; try discriminate. intros _ Hn Hz.
  destruct h as [sh|sh| |sh mh eh]; try discriminate; try reflexivity.
  congruence.
Qed.

Lemma py_round_zero (x : float) :
  euler_b64.is_zero (Prim2SF x) = true -> euler_b64.py_round x = inr 0%Z.
Proof.
  unfold euler_b64.py_round. now destruct (Prim2SF x).
Qed.

Lemma eqb_zero_is_zero (h : float) :
  (h =? 0)%float = euler_b64.is_zero (Prim2SF h).
Proof.
  rewrite eqb_spec, Prim2SF_zero. unfold SFeqb.
  destruct (Prim2SF h) as [s|s| |s m e]; try reflexivity; now destruct s.
Qed.

Lemma finite_quotient (x h : float) :
  euler_b64.finite (x / h) = true ->
  Prim2SF x <> S754_nan /\ Prim2SF h <> S754_nan.
Proof.
  unfold euler_b64.finite. rewrite div_spec.
  destruct (Prim2SF x), (Prim2SF h); cbn; try discriminate; split; discriminate.
Qed.

(** A call that passes all its checks has a finite initial time. *)
Lemma finite_initial_time (a b t0 h : float) :
  (a <=? t0)%float = true -> (t0 <=? b)%float = true ->
  euler_b64.finite ((t0 - a) / h) = true ->
  euler_b64.finite ((b - t0) / h) = true ->
  euler_b64.finite t0 = true.
Proof.
  intros Ha Hb Hqa Hqb.
  apply finite_quotient in Hqa, Hqb.
  destruct Hqa as [Hqa _], Hqb as [Hqb _].
  rewrite sub_spec in Hqa, Hqb. rewrite leb_spec in Ha, Hb.
  unfold euler_b64.finite, SFleb in *.
  destruct (Prim2SF t0) as [s|s| |s m e]; try reflexivity.
  - destruct s.
    + destruct (Prim2SF a) as [s'|s'| |s' m' e']; cbn in Ha, Hqa;
        try discriminate; destruct s'; try discriminate; congruence.
    + destruct (Prim2SF b) as [s'|s'| |s' m' e']; cbn in Hb, Hqb;
        try discriminate; destruct s'; try discriminate; congruence.
  - destruct (Prim2SF a); discriminate.
Qed.

(** With the left bound at [t0] there is no backward step. *)
Lemma self_count (a b t0 h : float) :
  (a <=? t0)%float = true -> (t0 <=? b)%float = true -> (h =? 0)%float = false ->
  euler_b64.finite ((t0 - a) / h) = true ->
  euler_b64.finite ((b - t0) / h) = true ->
  euler_b64.py_round ((t0 - t0) / h) = inr 0%Z.
Proof.
  intros Ha Hb Hh Hqa Hqb.
  pose proof (finite_initial_time a b t0 h Ha Hb Hqa Hqb) as Hfin.
  apply finite_quotient in Hqa. destruct Hqa as [_ Hn].
  apply py_round_zero. rewrite div_spec. apply SFdiv_zero.
  - rewrite sub_spec. apply SFsub_diag. unfold euler_b64.finite in Hfin.
    now destruct (Prim2SF t0).
  - assumption.
  - now rewrite <- eqb_zero_is_zero.
Qed.

(** * Outcomes of a solver call *)

Lemma driver_classified back fwd a b t0 y0 h :
  let r := euler_b64.driver back fwd a b t0 y0 h in
  ((exists ts ys, r = inr (ts, ys)) <->
   (a <=? t0)%float = true /\ (t0 <=? b)%float = true /\ (h =? 0)%float = false /\
   euler_b64.finite ((t0 - a) / h) = true /\
   euler_b64.finite ((b - t0) / h) = true) /\
  (forall e, r = inl e ->
     (e = AssertionError /\ ((a <=? t0)%float && (t0 <=? b)%float) = false) \/
     (e = ZeroDivisionError /\ (h =? 0)%float = true) \/
     ((e = OverflowError \/ e = ValueError) /\
      (euler_b64.finite ((t0 - a) / h) = false \/
       euler_b64.finite ((b - t0) / h) = false))) /\
  (forall ts ys, r = inr (ts, ys) ->
     exists nb,
       euler_b64.py_round ((t0 - a) / h) = inr nb /\
       length ts = length ys /\
       nth_error ts (Z.to_nat nb) = Some t0 /\
       nth_error ys (Z.to_nat nb) = Some y0).
Proof.
  cbv zeta. split; [|split].
  - split.
    + intros (ts & ys & H). apply driver_inr in H.
      destruct H as (Ha & Hb & Hh & nb & nf & Hnb & Hnf & _).
      repeat split; try assumption; apply py_round_finite; eauto.
    + intros (Ha & Hb & Hh & Hqa & Hqb).
      apply py_round_finite in Hqa, Hqb.
      destruct Hqa as [nb Hnb], Hqb as [nf Hnf].
      rewrite driver_outcome, Ha, Hb, Hh, Hnb, Hnf. cbn [andb negb].
      unfold euler_b64.protocol. eauto.
  - intros e. rewrite driver_outcome.
    destruct ((a <=? t0)%float && (t0 <=? b)%float); cbn [negb];
      [|intros H; injection H as <-; now left].
    destruct (h =? 0)%float; [intros H; injection H as <-; right; now left|].
    destruct (euler_b64.py_round ((t0 - a) / h)) as [e'|nb] eqn:Hnb.
    { intros H. injection H as <-. apply py_round_error in Hnb.
      right; right. tauto. }
    destruct (euler_b64.py_round ((b - t0) / h)) as [e'|nf] eqn:Hnf;
      [|discriminate].
    intros H. injection H as <-. apply py_round_error in Hnf.
    right; right. tauto.
  - intros ts ys H. apply driver_inr in H.
    destruct H as (_ & _ & _ & nb & nf & Hnb & _ & H).
    exists nb. split; [assumption|].
    unfold euler_b64.protocol in H. injection H as -> ->.
    rewrite !length_map. split; [reflexivity|].
    rewrite !nth_error_map, samples_initial_b64. now split.
Qed.

(** X1.  On floats a solver call returns a trajectory exactly when
    [a <= t0 <= b], [h] is not a zero, and the two quotients [(t0 - a)/h] and
    [(b - t0)/h] are finite, so that [round] accepts them.  A failure is the
    [AssertionError] of the bounds check, the [ZeroDivisionError] of a zero
    step, or the [OverflowError] or [ValueError] that [round] raises on an
    infinite quotient or a [nan].  A returned trajectory has as many times as
    values, and its sample of index [round((t0 - a)/h)] is [(t0, y0)]. *)
Theorem trajectory_shape f a b t0 y0 h threshold epochs :
  let outcome (r : result euler_b64.trajectory) :=
    ((exists ts ys, r = inr (ts, ys)) <->
     (a <=? t0)%float = true /\ (t0 <=? b)%float = true /\
     (h =? 0)%float = false /\
     euler_b64.finite ((t0 - a) / h) = true /\
     euler_b64.finite ((b - t0) / h) = true) /\
    (forall e, r = inl e ->
       (e = AssertionError /\ ((a <=? t0)%float && (t0 <=? b)%float) = false) \/
       (e = ZeroDivisionError /\ (h =? 0)%float = true) \/
       ((e = OverflowError \/ e = ValueError) /\
        (euler_b64.finite ((t0 - a) / h) = false \/
         euler_b64.finite ((b - t0) / h) = false))) /\
    (forall ts ys, r = inr (ts, ys) ->
       exists nb,
         euler_b64.py_round ((t0 - a) / h) = inr nb /\
         length ts = length ys /\
         nth_error ts (Z.to_nat nb) = Some t0 /\
         nth_error ys (Z.to_nat nb) = Some y0) in
  outcome (euler_b64.euler_explicit f a b t0 y0 h) /\
  outcome (euler_b64.euler_implicit f a b t0 y0 h threshold epochs) /\
  outcome (euler_b64.euler_trapezium f a b t0 y0 h threshold epochs) /\
  outcome (euler_b64.euler_improved f a b t0 y0 h).
Proof.
  intros outcome.
  rewrite euler_explicit_driver_b64, euler_implicit_driver_b64,
    euler_trapezium_driver_b64, euler_improved_driver_b64.
  repeat apply conj; apply driver_classified.
Qed.

(** * Termination and the loop counts *)

Lemma driver_runs back fwd a b t0 y0 h :
  (a <=? t0)%float = true -> (t0 <=? b)%float = true -> (0 <? h)%float = true ->
  let r := euler_b64.driver back fwd a b t0 y0 h in
  match euler_b64.py_round ((t0 - a) / h), euler_b64.py_round ((b - t0) / h) with
  | inr nb, inr nf =>
      let bs := euler_b64.backward_steps back h (Z.to_nat nb) t0 y0 in
      let fs := euler_b64.forward_steps fwd h (Z.to_nat nf) t0 y0 in
      Z.of_nat (length bs) = nb /\ Z.of_nat (length fs) = nf /\
      r = inr (map fst (rev bs ++ [(t0, y0)] ++ fs),
               map snd (rev bs ++ [(t0, y0)] ++ fs))
  | inr nb, inl e =>
      (0 <= nb)%Z /\ r = inl e /\ (e = OverflowError \/ e = ValueError)
  | inl e, _ => r = inl e /\ (e = OverflowError \/ e = ValueError)
  end.
Proof.
  intros Ha Hb Hh r. subst r. rewrite driver_outcome, Ha, Hb.
  rewrite (ltb_zero_nonzero h Hh). cbn [andb negb].
  destruct (euler_b64.py_round ((t0 - a) / h)) as [e|nb] eqn:Hnb.
  { split; [reflexivity|]. now apply py_round_error in Hnb. }
  pose proof (count_nonneg a t0 h nb Ha Hh Hnb) as Hnb0.
  destruct (euler_b64.py_round ((b - t0) / h)) as [e|nf] eqn:Hnf.
  { repeat split; [assumption|]. now apply py_round_error in Hnf. }
  pose proof (count_nonneg t0 b h nf Hb Hh Hnf) as Hnf0.
  cbv zeta. rewrite backward_steps_length_b64, forward_steps_length_b64.
  repeat split; lia.
Qed.

(** C10.  On floats, with [a <= t0 <= b], [h > 0] and [epochs >= 0], every
    solver call ends.  When [round] accepts the two quotients, the call
    returns the trajectory made of exactly [round((t0 - a)/h)] executions of
    the backward loop body and exactly [round((b - t0)/h)] executions of the
    forward loop body; neither count is negative.  Otherwise a quotient is
    infinite or a [nan], and the call ends with the [OverflowError] or
    [ValueError] of [round], before the loop whose count it is.  Every run
    of a fixed-point loop, in [euler_implicit] and [euler_trapezium] alike,
    executes at least one and at most [epochs + 1] iterations. *)
Theorem solvers_terminate f a b t0 y0 h threshold epochs :
  (a <=? t0)%float = true -> (t0 <=? b)%float = true -> (0 <? h)%float = true ->
  (0 <= epochs)%Z ->
  let runs (back fwd : float -> float -> float) (r : result euler_b64.trajectory) :=
    match euler_b64.py_round ((t0 - a) / h), euler_b64.py_round ((b - t0) / h) with
    | inr nb, inr nf =>
        let bs := euler_b64.backward_steps back h (Z.to_nat nb) t0 y0 in
        let fs := euler_b64.forward_steps fwd h (Z.to_nat nf) t0 y0 in
        Z.of_nat (length bs) = nb /\ Z.of_nat (length fs) = nf /\
        r = inr (map fst (rev bs ++ [(t0, y0)] ++ fs),
                 map snd (rev bs ++ [(t0, y0)] ++ fs))
    | inr nb, inl e =>
        (0 <= nb)%Z /\ r = inl e /\ (e = OverflowError \/ e = ValueError)
    | inl e, _ => r = inl e /\ (e = OverflowError \/ e = ValueError)
    end in
  let bounded (r : float * float * Z) :=
    (1 <= euler_b64.iterations r <= epochs + 1)%Z in
  runs (euler_b64.explicit_back f h) (euler_b64.explicit_fwd f h)
    (euler_b64.euler_explicit f a b t0 y0 h) /\
  runs (fun ti yi => euler_b64.accepted
          (euler_b64.implicit_back_loop f h threshold epochs ti yi))
       (fun ti yi => euler_b64.accepted
          (euler_b64.implicit_fwd_loop f h threshold epochs ti yi))
    (euler_b64.euler_implicit f a b t0 y0 h threshold epochs) /\
  runs (fun ti yi => euler_b64.accepted
          (euler_b64.trapezium_back_loop f h threshold epochs ti yi))
       (fun ti yi => euler_b64.accepted
          (euler_b64.trapezium_fwd_loop f h threshold epochs ti yi))
    (euler_b64.euler_trapezium f a b t0 y0 h threshold epochs) /\
  runs (euler_b64.improved_back f h) (euler_b64.improved_fwd f h)
    (euler_b64.euler_improved f a b t0 y0 h) /\
  (forall ti yi,
     bounded (euler_b64.implicit_back_loop f h threshold epochs ti yi) /\
     bounded (euler_b64.implicit_fwd_loop f h threshold epochs ti yi) /\
     bounded (euler_b64.trapezium_back_loop f h threshold epochs ti yi) /\
     bounded (euler_b64.trapezium_fwd_loop f h threshold epochs ti yi)) /\
  (forall g seed,
     bounded (euler_b64.fixed_point_iteration g threshold epochs 0 seed)).
Proof.
  intros Ha Hb Hh He runs bounded.
  rewrite euler_explicit_driver_b64, euler_implicit_driver_b64,
    euler_trapezium_driver_b64, euler_improved_driver_b64.
  split; [apply (driver_runs _ _ a b t0 y0 h Ha Hb Hh)|].
  split; [apply (driver_runs _ _ a b t0 y0 h Ha Hb Hh)|].
  split; [apply (driver_runs _ _ a b t0 y0 h Ha Hb Hh)|].
  split; [apply (driver_runs _ _ a b t0 y0 h Ha Hb Hh)|].
  split.
  - intros ti yi. repeat split; apply (iterations_bound_b64 _ threshold _ _ He).
  - intros g seed. apply (iterations_bound_b64 _ threshold _ _ He).
Qed.

Lemma solvers_terminate_witness :
  euler_b64.euler_implicit euler_b64.f1 0 1 0.5 1 0.25 euler_b64.default_threshold 100 =
  inr (map fst
         (rev (euler_b64.backward_steps
                 (fun ti yi => euler_b64.accepted
                    (euler_b64.implicit_back_loop euler_b64.f1 0.25
                       euler_b64.default_threshold 100 ti yi)) 0.25 2 0.5 1) ++
          [(0.5%float, 1%float)] ++
          euler_b64.forward_steps
            (fun ti yi => euler_b64.accepted
               (euler_b64.implicit_fwd_loop euler_b64.f1 0.25
                  euler_b64.default_threshold 100 ti yi)) 0.25 2 0.5 1),
       map snd
         (rev (euler_b64.backward_steps
                 (fun ti yi => euler_b64.accepted
                    (euler_b64.implicit_back_loop euler_b64.f1 0.25
                       euler_b64.default_threshold 100 ti yi)) 0.25 2 0.5 1) ++
          [(0.5%float, 1%float)] ++
          euler_b64.forward_steps
            (fun ti yi => euler_b64.accepted
               (euler_b64.implicit_fwd_loop euler_b64.f1 0.25
                  euler_b64.default_threshold 100 ti yi)) 0.25 2 0.5 1)).
Proof.
  exact (proj2 (proj2 (proj1 (proj2
    (solvers_terminate euler_b64.f1 0 1 0.5 1 0.25 euler_b64.default_threshold 100
       eq_refl eq_refl eq_refl ltac:(discriminate)))))).
Defined.

(** * The time grid on floats *)





(** * Forward stepping and the backward pass, on floats *)

Lemma driver_forward_independent back fwd a b t0 y0 h ts ys :
  euler_b64.driver back fwd a b t0 y0 h = inr (ts, ys) ->
  exists nb,
    euler_b64.py_round ((t0 - a) / h) = inr nb /\
    euler_b64.driver back fwd t0 b t0 y0 h =
      inr (skipn (Z.to_nat nb) ts, skipn (Z.to_nat nb) ys).
Proof.
  intros H.
  assert (Hret : exists ts ys, euler_b64.driver back fwd a b t0 y0 h = inr (ts, ys))
    by eauto.
  apply (proj1 (driver_classified back fwd a b t0 y0 h)) in Hret.
  destruct Hret as (Ha & Hb & Hh & Hqa & Hqb).
  apply driver_inr in H.
  destruct H as (_ & _ & _ & nb & nf & Hnb & Hnf & H).
  exists nb. split; [assumption|].
  rewrite driver_outcome.
  rewrite (float_leb_refl t0) by (apply (float_leb_not_nan a t0 Ha)).
  rewrite Hb, Hh, (self_count a b t0 h Ha Hb Hh Hqa Hqb), Hnf.
  cbn [andb negb]. f_equal.
  unfold euler_b64.protocol in *. injection H as -> ->.
  rewrite !skipn_map, samples_skipn_b64. reflexivity.
Qed.

(** C7, as stated, fails on floats: the samples with [t >= t0] need not be
    those of the forward pass.  From [a = 1e16 - 4] to [b = 1e16 + 4] with
    [t0 = 1e16] and [h = 1] every backward step computes [1e16 - 1], which
    rounds to [1e16], so all nine samples have [t >= t0], while the call with
    the left bound at [t0] returns five. *)
Lemma filter_keeps_absorbed_steps :
  let a := 9999999999999996%float in
  let t0 := 10000000000000000%float in
  let b := 10000000000000004%float in
  let f (t y : float) := 1%float in
  (a <? t0)%float = true /\ (t0 <? b)%float = true /\
  euler_b64.from_t0 t0 (euler_b64.euler_explicit f a b t0 0 1) =
    inr [(t0, -4); (t0, -3); (t0, -2); (t0, -1); (t0, 0);
         (t0, 1); (t0, 2); (t0, 3); (t0, 4)]%float /\
  euler_b64.euler_explicit f t0 b t0 0 1 =
    inr ([t0; t0; t0; t0; t0], [0; 1; 2; 3; 4]%float).
Proof. cbv zeta. repeat split; vm_compute; reflexivity. Qed.

(** C7 (amended).  On floats, whenever a solver called with the left bound [a]
    returns a trajectory, the same solver called with the left bound [t0]
    returns that trajectory without its first [round((t0 - a)/h)] samples,
    the ones the backward pass produced: the initial point and the forward
    steps do not depend on [a].  The forward part is selected by position;
    selecting by [t >= t0] can let backward samples through. *)
Theorem forward_pass_independent f a b t0 y0 h threshold epochs :
  let independent (solve : float -> result euler_b64.trajectory) :=
    forall ts ys, solve a = inr (ts, ys) ->
    exists nb,
      euler_b64.py_round ((t0 - a) / h) = inr nb /\
      solve t0 = inr (skipn (Z.to_nat nb) ts, skipn (Z.to_nat nb) ys) in
  independent (fun a => euler_b64.euler_explicit f a b t0 y0 h) /\
  independent (fun a => euler_b64.euler_implicit f a b t0 y0 h threshold epochs) /\
  independent (fun a => euler_b64.euler_trapezium f a b t0 y0 h threshold epochs) /\
  independent (fun a => euler_b64.euler_improved f a b t0 y0 h).
Proof.
  intros independent. subst independent. cbv beta.
  rewrite !euler_explicit_driver_b64, !euler_implicit_driver_b64,
    !euler_trapezium_driver_b64, !euler_improved_driver_b64.
  repeat apply conj; intros ts ys; apply driver_forward_independent.
Qed.

Lemma forward_pass_independent_witness :
  exists nb,
    euler_b64.py_round ((0.5 - 0) / 0.25) = inr nb /\
    euler_b64.euler_explicit (fun _ y => y) 0.5 1 0.5 1 0.25 =
      inr (skipn (Z.to_nat nb) [0; 0.25; 0.5; 0.75; 1]%float,
           skipn (Z.to_nat nb) [0.5625; 0.75; 1; 1.25; 1.5625]%float).
Proof.
  refine (proj1 (forward_pass_independent (fun _ y => y) 0 1 0.5 1 0.25
                   euler_b64.default_threshold 100) _ _ _).
  vm_compute. reflexivity.
Defined.

(** * Constant derivatives on floats *)



















